(** * Static Huffman coding (src/19/19_huffman.py)

    A shallow embedding of [StaticHuffmanCoder] and of the part of Python's
    [heapq] module it runs on, followed by the properties of the coder.

    Modelling conventions:
    - Python [int] is [Z]; a Python [str] used as a bit string is a
      [list ascii]; the symbols of a text are an arbitrary countable type
      [Sym] (instantiated with [ascii] in the examples).
    - A Python [dict] that is iterated ([freq_table]) is an association
      list in insertion order; the dictionaries that are only looked up
      ([codes], [reverse_codes]) are [gmap]s.
    - Exceptions are results [Raise e]; a loop that would need more
      iterations than the bound passed to it yields [Raise OutOfFuel].
    - The recursion of [generate_codes] is structural in [generate_codes],
      which gives the tables it computes, and is counted against the
      interpreter's recursion limit in [generate_codes_within], which
      gives [Raise RecursionError] when the frames run out; [decode_within]
      is [decode] over the latter. *)

From Stdlib Require Import ZArith Lia ZifyNat Ascii String.
From stdpp Require Import gmap list strings.

Local Open Scope Z_scope.
Local Open Scope nat_scope.

(** [lia] is to reason about the [/ 2] of the heap indices. *)
Ltac Zify.zify_post_hook ::= Z.div_mod_to_equations.

(** * The model *)

(** ** Results of computations that may raise *)

Inductive exn := IndexError | KeyError | RecursionError | OutOfFuel.

Inductive result (A : Type) : Type :=
| Ok (a : A)
| Raise (e : exn).
Arguments Ok {A} a.
Arguments Raise {A} e.

#[global] Instance result_ret : MRet result := @Ok.
#[global] Instance result_bind : MBind result :=
  λ A B f m, match m with Ok a => f a | Raise e => Raise e end.

Definition is_Ok {A} (r : result A) : Prop := ∃ a, r = Ok a.

Lemma bind_Ok {A B} (a : A) (f : A → result B) : Ok a ≫= f = f a.
Proof. reflexivity. Qed.

(** [l[i]] and [l[i] = x] on a Python list, for a non-negative index. *)
Definition getitem {A} (l : list A) (i : nat) : result A :=
  match l !! i with
  | Some x => Ok x
  | None => Raise IndexError
  end.

Definition setitem {A} (l : list A) (i : nat) (x : A) : result (list A) :=
  if decide (i < length l) then Ok (<[i:=x]> l) else Raise IndexError.

Arguments getitem : simpl never.
Arguments Nat.div : simpl never.
Arguments Nat.mul : simpl never.
Arguments setitem : simpl never.

(** ** The heapq module (CPython, Lib/heapq.py) *)

Module heapq.
Section heapq.
Context {A : Type} (lt : A → A → bool).

(** The [while pos > startpos] loop of [_siftdown]. *)
Fixpoint siftdown_loop (fuel : nat) (heap : list A) (newitem : A)
    (startpos pos : nat) : result (list A) :=
  if decide (startpos < pos) then
    match fuel with
    | 0 => Raise OutOfFuel
    | S fuel =>
        let parentpos := (pos - 1) / 2 in
        parent ← getitem heap parentpos;
        if lt newitem parent then
          heap ← setitem heap pos parent;
          siftdown_loop fuel heap newitem startpos parentpos
        else setitem heap pos newitem
    end
  else setitem heap pos newitem.

Definition _siftdown (heap : list A) (startpos pos : nat) : result (list A) :=
  newitem ← getitem heap pos;
  siftdown_loop pos heap newitem startpos pos.

(** The [while childpos < endpos] loop of [_siftup]; it returns the heap
    and the position of the leaf that is left empty. *)
Fixpoint siftup_loop (fuel : nat) (heap : list A) (endpos pos childpos : nat)
    : result (list A * nat) :=
  if decide (childpos < endpos) then
    match fuel with
    | 0 => Raise OutOfFuel
    | S fuel =>
        let rightpos := childpos + 1 in
        childpos ←
          (if decide (rightpos < endpos) then
             l ← getitem heap childpos;
             r ← getitem heap rightpos;
             Ok (if negb (lt l r) then rightpos else childpos)
           else Ok childpos);
        child ← getitem heap childpos;
        heap ← setitem heap pos child;
        siftup_loop fuel heap endpos childpos (2 * childpos + 1)
    end
  else Ok (heap, pos).

Definition _siftup (heap : list A) (pos : nat) : result (list A) :=
  let endpos := length heap in
  let startpos := pos in
  newitem ← getitem heap pos;
  '(heap, pos) ← siftup_loop endpos heap endpos pos (2 * pos + 1);
  heap ← setitem heap pos newitem;
  _siftdown heap startpos pos.

Definition heappush (heap : list A) (item : A) : result (list A) :=
  let heap := heap ++ [item] in
  _siftdown heap 0 (length heap - 1).

(** [heap.pop()]: the last element and the list without it. *)
Definition list_pop (heap : list A) : result (A * list A) :=
  match last heap with
  | Some x => Ok (x, removelast heap)
  | None => Raise IndexError
  end.

Definition heappop (heap : list A) : result (A * list A) :=
  '(lastelt, heap) ← list_pop heap;
  match heap with
  | [] => Ok (lastelt, heap)
  | _ :: _ =>
      returnitem ← getitem heap 0;
      heap ← setitem heap 0 lastelt;
      heap ← _siftup heap 0;
      Ok (returnitem, heap)
  end.

End heapq.
End heapq.

Import heapq.

(** ** The coder *)

Section coder.
Context {Sym : Type} `{Countable Sym}.

(** [HuffmanNode]: a node made for a symbol has [char] set and no
    children; a merged node has [char = None] and both children. *)
Inductive HuffmanNode : Type :=
| Leaf (char : Sym) (freq : Z)
| Internal (freq : Z) (left right : HuffmanNode).

Definition freq (n : HuffmanNode) : Z :=
  match n with
  | Leaf _ f => f
  | Internal f _ _ => f
  end.

(** [HuffmanNode.__lt__] *)
Definition node_lt (self other : HuffmanNode) : bool :=
  bool_decide (freq self < freq other)%Z.

(** The instance state: [self.codes] and [self.reverse_codes]. *)
Record Coder : Type := mkCoder {
  codes : gmap Sym (list ascii);
  reverse_codes : gmap (list ascii) Sym
}.

(** [StaticHuffmanCoder()] *)
Definition new_coder : Coder := mkCoder ∅ ∅.

(** [Counter(text)]: a key is inserted at its first occurrence and
    counted up in place afterwards. *)
Fixpoint count_up (c : Sym) (ft : list (Sym * Z)) : list (Sym * Z) :=
  match ft with
  | [] => [(c, 1%Z)]
  | (k, n) :: ft' =>
      if decide (k = c) then (k, (n + 1)%Z) :: ft' else (k, n) :: count_up c ft'
  end.

Definition build_frequency_table (text : list Sym) : list (Sym * Z) :=
  foldl (λ ft c, count_up c ft) [] text.

(** The [for char, freq in freq_table.items()] loop. *)
Fixpoint seed_heap (heap : list HuffmanNode) (items : list (Sym * Z))
    : result (list HuffmanNode) :=
  match items with
  | [] => Ok heap
  | (char, f) :: items =>
      heap ← heappush node_lt heap (Leaf char f);
      seed_heap heap items
  end.

(** The body of the [while len(heap) > 1] loop. *)
Definition merge_step (heap : list HuffmanNode) : result (list HuffmanNode) :=
  '(node1, heap) ← heappop node_lt heap;
  '(node2, heap) ← heappop node_lt heap;
  let merged := Internal (freq node1 + freq node2) node1 node2 in
  heappush node_lt heap merged.

(** The [while len(heap) > 1] loop. *)
Fixpoint merge_loop (fuel : nat) (heap : list HuffmanNode)
    : result (list HuffmanNode) :=
  if decide (1 < length heap) then
    match fuel with
    | 0 => Raise OutOfFuel
    | S fuel =>
        heap ← merge_step heap;
        merge_loop fuel heap
    end
  else Ok heap.

Definition build_huffman_tree (freq_table : list (Sym * Z))
    : result (option HuffmanNode) :=
  match freq_table with
  | [] => Ok None
  | _ :: _ =>
      heap ← seed_heap [] freq_table;
      heap ← merge_loop (length heap) heap;
      Ok (head heap)
  end.

(** [generate_codes] on a node that is not [None]. *)
Fixpoint generate_codes_node (self : Coder) (node : HuffmanNode)
    (code : list ascii) : Coder :=
  match node with
  | Leaf char _ =>
      mkCoder (<[char := code]> (codes self))
              (<[code := char]> (reverse_codes self))
  | Internal _ lchild rchild =>
      let self := generate_codes_node self lchild (code ++ ["0"%char]) in
      generate_codes_node self rchild (code ++ ["1"%char])
  end.

Definition generate_codes (self : Coder) (node : option HuffmanNode)
    (code : list ascii) : Coder :=
  match node with
  | None => self
  | Some node => generate_codes_node self node code
  end.

(** The [for char in text] loop of [encode]. *)
Fixpoint encode_loop (self : Coder) (text : list Sym) (encoded_bits : list ascii)
    : result (list ascii) :=
  match text with
  | [] => Ok encoded_bits
  | char :: text =>
      match codes self !! char with
      | Some code => encode_loop self text (encoded_bits ++ code)
      | None => Raise KeyError
      end
  end.

Definition encode (self : Coder) (text : list Sym)
    : result (list ascii * list (Sym * Z) * Coder) :=
  match text with
  | [] => Ok ([], [], self)
  | _ :: _ =>
      let freq_table := build_frequency_table text in
      root ← build_huffman_tree freq_table;
      let self := generate_codes new_coder root [] in
      encoded_bits ← encode_loop self text [];
      Ok (encoded_bits, freq_table, self)
  end.

(** The [for bit in encoded_bits] loop of [decode]. *)
Fixpoint decode_loop (self : Coder) (encoded_bits : list ascii)
    (current_code : list ascii) (decoded_text : list Sym) : list Sym :=
  match encoded_bits with
  | [] => decoded_text
  | bit :: encoded_bits =>
      let current_code := current_code ++ [bit] in
      match reverse_codes self !! current_code with
      | Some char => decode_loop self encoded_bits [] (decoded_text ++ [char])
      | None => decode_loop self encoded_bits current_code decoded_text
      end
  end.

Definition decode (self : Coder) (encoded_bits : list ascii)
    (freq_table : list (Sym * Z)) : result (list Sym * Coder) :=
  match encoded_bits, freq_table with
  | [], _ | _, [] => Ok ([], self)
  | _, _ =>
      self ← (if decide (codes self = ∅) then
                root ← build_huffman_tree freq_table;
                Ok (generate_codes new_coder root [])
              else Ok self);
      Ok (decode_loop self encoded_bits [] [], self)
  end.




End coder.

Arguments HuffmanNode Sym : clear implicits.
Arguments Coder Sym {_ _}.

(** ** Notions for the statements and the proofs *)

Section heap_order.
Context {A : Type} (key : A → Z).

Definition key_lt (a b : A) : bool := bool_decide (key a < key b)%Z.

(** The heap invariant of heapq: [heap[(i-1)>>1] <= heap[i]] for [i > 0]. *)
Definition is_heap (h : list A) : Prop :=
  ∀ i x p, 0 < i → h !! i = Some x → h !! ((i - 1) / 2) = Some p →
    (key p ≤ key x)%Z.

(** [h] is a heap but for the entry at [pos], where [newitem] is to go:
    [newitem] and the parent of [pos] are below the children of [pos]. *)
Definition down_inv (h : list A) (pos : nat) (newitem : A) : Prop :=
  (∀ i x p, 0 < i → i ≠ pos → (i - 1) / 2 ≠ pos →
      h !! i = Some x → h !! ((i - 1) / 2) = Some p → (key p ≤ key x)%Z) ∧
  (∀ c x, 0 < c → (c - 1) / 2 = pos → h !! c = Some x →
      (key newitem ≤ key x)%Z ∧
      (0 < pos → ∀ g, h !! ((pos - 1) / 2) = Some g → (key g ≤ key x)%Z)).

(** [h] is a heap but for the entry at [pos], which is vacant: the parent
    of [pos] is below the children of [pos]. *)
Definition up_inv (h : list A) (pos : nat) : Prop :=
  ∀ i x, 0 < i → i ≠ pos → h !! i = Some x →
    ((i - 1) / 2 ≠ pos → ∀ p, h !! ((i - 1) / 2) = Some p → (key p ≤ key x)%Z) ∧
    ((i - 1) / 2 = pos → 0 < pos →
       ∀ g, h !! ((pos - 1) / 2) = Some g → (key g ≤ key x)%Z).

End heap_order.

Section insert_all_def.
Context {K V : Type} `{Countable K}.
Implicit Types (m : gmap K V) (L : list (K * V)).

(** Assigning [d[k] = v] for the pairs of a list, in order. *)
Definition insert_all m L : gmap K V := foldl (λ m kv, <[kv.1:=kv.2]> m) m L.

End insert_all_def.

Section notions.
Context {Sym : Type} `{Countable Sym}.
Implicit Types (t : HuffmanNode Sym) (F heap : list (HuffmanNode Sym)).
Implicit Types (self : Coder Sym) (text : list Sym) (ft : list (Sym * Z)).

(** The symbols of a tree with their frequencies, left to right. *)
Fixpoint leaves t : list (Sym * Z) :=
  match t with
  | Leaf c f => [(c, f)]
  | Internal _ l r => leaves l ++ leaves r
  end.

(** The path from the root to each leaf: ["0"] to the left, ["1"] to the
    right. *)
Fixpoint paths t : list (Sym * list ascii) :=
  match t with
  | Leaf c _ => [(c, [])]
  | Internal _ l r =>
      (prod_map id (cons "0"%char) <$> paths l) ++
      (prod_map id (cons "1"%char) <$> paths r)
  end.


(** Every merged node carries the sum of the frequencies below it. *)
Fixpoint well_weighted t : Prop :=
  match t with
  | Leaf _ _ => True
  | Internal f l r => f = (freq l + freq r)%Z ∧ well_weighted l ∧ well_weighted r
  end.

(** One iteration of the merge loop, on the forest as a multiset: two
    trees of least frequency are replaced by their merge. *)
Inductive huffman_step F F' : Prop :=
| huffman_step_intro node1 node2 rest :
    F ≡ₚ node1 :: node2 :: rest →
    (∀ n, n ∈ F → (freq node1 ≤ freq n)%Z) →
    (∀ n, n ∈ node2 :: rest → (freq node2 ≤ freq n)%Z) →
    F' ≡ₚ Internal (freq node1 + freq node2) node1 node2 :: rest →
    huffman_step F F'.

(** The forest [F] is merged into the single tree [t]. *)
Inductive builds : list (HuffmanNode Sym) → HuffmanNode Sym → Prop :=
| builds_done t : builds [t] t
| builds_step F F' t : huffman_step F F' → builds F' t → builds F t.

(** The heaps that [build_huffman_tree] goes through on a table: the heap
    it seeds with the leaves, and the heap after each iteration. *)
Inductive building ft : list (HuffmanNode Sym) → Prop :=
| building_seed heap :
    seed_heap [] ft = Ok heap → building ft heap
| building_step heap heap' :
    building ft heap → 1 < length heap → merge_step heap = Ok heap' →
    building ft heap'.

(** The tables [generate_codes] fills from a fresh coder. *)
Definition tables_of (root : option (HuffmanNode Sym)) : Coder Sym :=
  generate_codes new_coder root [].

(** The two tables of a coder mirror each other. *)
Definition consistent self : Prop :=
  ∀ p c, reverse_codes self !! p = Some c → codes self !! c = Some p.

(** How often a symbol occurs in a text. *)
Definition occurrences (s : Sym) text : Z :=
  Z.of_nat (length (filter (λ c, c = s) text)).

(** The loop of [Counter(text)], from the counts [acc]. *)
Definition tally (acc : list (Sym * Z)) text : list (Sym * Z) :=
  foldl (λ ft c, count_up c ft) acc text.

(** [freq_table.get(s, 0)] *)
Fixpoint count_of ft (s : Sym) : Z :=
  match ft with
  | [] => 0
  | (k, n) :: ft => if decide (k = s) then n else count_of ft s
  end.

(** The sum of [n * g s] over the entries [(s, n)] of a table. *)
Definition weighted_sum (g : Sym → Z) ft : Z :=
  foldr (λ '(s, n) acc, (n * g s + acc)%Z) 0%Z ft.

(** The code table that [encode] and [decode] generate for the frequency
    table of a text (steps 1 to 3 of [encode]). *)
Definition code_table text : result (gmap Sym (list ascii)) :=
  root ← build_huffman_tree (build_frequency_table text);
  Ok (codes (generate_codes new_coder root [])).

(** The length of the code word of [s] in a coder's table. *)
Definition code_length self (s : Sym) : Z :=
  Z.of_nat (length (default [] (codes self !! s))).

(** What the demonstrations of the source do with a text:
    [coder = StaticHuffmanCoder()], [coder.encode(text)], then
    [coder.decode] of the result with the same coder. *)
Definition roundtrip text : result (list Sym) :=
  '(encoded, freq_table, coder) ← encode new_coder text;
  '(decoded, _) ← decode coder encoded freq_table;
  Ok decoded.

(** The text returned by a [decode]. *)
Definition decoded_text (r : result (list Sym * Coder Sym))
    : result (list Sym) :=
  '(decoded, _) ← r; Ok decoded.

End notions.

Arguments tables_of : simpl never.

(** ** The tie-break in the words of the specification

    The specification (4.2) has every node of the queue tagged with a
    creation-order id, pops the minimum by frequency first and id second,
    and gives the merged node the next id. *)

Section spec_tie_break.
Context {Sym : Type}.
Implicit Types (queue : list (nat * HuffmanNode Sym)).

Definition spec_before (a b : nat * HuffmanNode Sym) : bool :=
  bool_decide (freq a.2 < freq b.2)%Z
  || (bool_decide (freq a.2 = freq b.2) && bool_decide (a.1 < b.1)).

Fixpoint spec_pop_min queue
    : option ((nat * HuffmanNode Sym) * list (nat * HuffmanNode Sym)) :=
  match queue with
  | [] => None
  | e :: queue =>
      match spec_pop_min queue with
      | Some (m, rest) =>
          if spec_before m e then Some (m, e :: rest) else Some (e, queue)
      | None => Some (e, [])
      end
  end.

Fixpoint spec_merge_loop (fuel next_id : nat) queue : option (HuffmanNode Sym) :=
  match queue with
  | [] => None
  | [(_, root)] => Some root
  | _ =>
      match fuel with
      | 0 => None
      | S fuel =>
          '(a, queue) ← spec_pop_min queue;
          '(b, queue) ← spec_pop_min queue;
          let merged := Internal (freq a.2 + freq b.2) a.2 b.2 in
          spec_merge_loop fuel (S next_id) ((next_id, merged) :: queue)
      end
  end.

Definition spec_build_tree (freq_table : list (Sym * Z)) : option (HuffmanNode Sym) :=
  spec_merge_loop (length freq_table) (length freq_table)
    (imap (λ i cf, (i, Leaf cf.1 cf.2)) freq_table).

End spec_tie_break.

(** ** Trees of weights

    The cost of a code only depends on the weights at the leaves of its
    tree and on their depths. [wtree] keeps just that, and the cost of the
    merge steps is compared with the cost of any such tree. *)

Inductive wtree : Type :=
| WLeaf (w : Z)
| WNode (l r : wtree).

(** The weight and the depth of every leaf, left to right. *)
Fixpoint profile (u : wtree) : list (Z * nat) :=
  match u with
  | WLeaf w => [(w, 0)]
  | WNode l r => prod_map id S <$> (profile l ++ profile r)
  end.

Fixpoint height (u : wtree) : nat :=
  match u with
  | WLeaf _ => 0
  | WNode l r => S (height l `max` height r)
  end.

Definition sumZ (l : list Z) : Z := foldr Z.add 0%Z l.

(** Sum of weight times depth. *)
Definition pcost (P : list (Z * nat)) : Z :=
  sumZ ((λ e, e.1 * Z.of_nat e.2)%Z <$> P).

Definition weights (u : wtree) : list Z := (profile u).*1.

Definition wcost (u : wtree) : Z := pcost (profile u).

(** The sums of the two least weights that the merge steps add up, from a
    multiset of weights down to one weight. *)
Inductive hcost : list Z → Z → Prop :=
| hcost_one w : hcost [w] 0
| hcost_step W W' w1 w2 rest c :
    W ≡ₚ w1 :: w2 :: rest →
    (∀ w, w ∈ W → (w1 ≤ w)%Z) →
    (∀ w, w ∈ w2 :: rest → (w2 ≤ w)%Z) →
    W' ≡ₚ (w1 + w2)%Z :: rest →
    hcost W' c →
    hcost W (c + w1 + w2).

(** The profiles of trees, as multisets. *)
Definition treelike (P : list (Z * nat)) : Prop := ∃ u, profile u ≡ₚ P.

Definition binary (c : list ascii) : Prop :=
  Forall (λ b, b = "0"%char ∨ b = "1"%char) c.

(** No code word of the list is a prefix of a code word further on, or the
    other way round. *)
Fixpoint pfree (L : list (list ascii)) : Prop :=
  match L with
  | [] => True
  | c :: L => Forall (λ c', ¬ c `prefix_of` c' ∧ ¬ c' `prefix_of` c) L ∧ pfree L
  end.

(** The code words that begin with [b], without it, with their weights. *)
Definition strip (b : ascii) (items : list (list ascii * Z)) : list (list ascii * Z) :=
  omap (λ it, match it.1 with
              | b' :: c => if decide (b' = b) then Some (c, it.2) else None
              | [] => None
              end) items.

(** Sum of weight times code word length. *)
Definition icost (items : list (list ascii * Z)) : Z :=
  sumZ ((λ it, it.2 * Z.of_nat (length it.1))%Z <$> items).

#[global] Instance binary_dec c : Decision (binary c) :=
  Forall_dec (λ b, b = "0"%char ∨ b = "1"%char) c.

Arguments strip : simpl never.

Section weights_of_trees.
Context {Sym : Type}.
Implicit Types (t : HuffmanNode Sym) (ft : list (Sym * Z)).

(** The weights of a tree of the coder, without the symbols. *)
Fixpoint to_wtree t : wtree :=
  match t with
  | Leaf _ f => WLeaf f
  | Internal _ l r => WNode (to_wtree l) (to_wtree r)
  end.

(** The code words of an assignment, with the weights of their symbols. *)
Definition items_of (assignment : Sym → list ascii) ft : list (list ascii * Z) :=
  (λ e, (assignment e.1, e.2)) <$> ft.

End weights_of_trees.

(** ** The texts of the source's demonstrations *)

Definition str (s : string) : list ascii := list_ascii_of_string s.

Definition abracadabra_table : list (ascii * Z) :=
  [("a", 5); ("b", 2); ("r", 2); ("c", 1); ("d", 1)]%char%Z.

Definition abracadabra_tree : HuffmanNode ascii :=
  Internal 11 (Leaf "a"%char 5)
    (Internal 6 (Internal 2 (Leaf "c"%char 1) (Leaf "d"%char 1))
                (Internal 4 (Leaf "r"%char 2) (Leaf "b"%char 2))).

Definition abracadab_code_words : list (list ascii) :=
  str <$> ["0"; "111"; "110"; "0"; "100"; "0"; "101"; "0"; "111"]%string.

Definition abcd_table : list (ascii * Z) :=
  [("a", 1); ("b", 1); ("c", 1); ("d", 1)]%char%Z.

Definition abcd_heap : list (HuffmanNode ascii) :=
  [Leaf "a"%char 1; Leaf "b"%char 1; Leaf "c"%char 1; Leaf "d"%char 1].


(** A code of two and three bits for the symbols of ["abracadabra"]. *)
Definition short_code (s : ascii) : list ascii :=
  if decide (s = "a"%char) then str "00"
  else if decide (s = "b"%char) then str "01"
  else if decide (s = "r"%char) then str "10"
  else if decide (s = "c"%char) then str "110"
  else str "111".

(** * Properties *)

(** ** heapq on integers *)

Example heappush_ex :
  foldl (λ r x, h ← r; heappush Z.ltb h x) (Ok []) [5; 2; 2; 1; 1]%Z
  = Ok [1; 1; 2; 5; 2]%Z.
Proof. reflexivity. Qed.

Example heappop_ex :
  heappop Z.ltb [1; 1; 2; 5; 2]%Z = Ok (1, [1; 2; 2; 5])%Z.
Proof. reflexivity. Qed.

(** ** Facts about heapq, for an order given by an integer key *)

Section heapq_facts.
Context {A : Type} (key : A → Z).

Lemma insert_cons_perm (l : list A) i x y :
  l !! i = Some y → y :: <[i:=x]> l ≡ₚ x :: l.
Proof.
  revert i. induction l as [|a l IH]; intros [|i] Hi; simplify_eq/=.
  - apply perm_swap.
  - rewrite perm_swap, (IH _ Hi). apply perm_swap.
Qed.

Lemma insert_insert_perm (l : list A) i j x y :
  i ≠ j → i < length l → l !! j = Some y →
  <[j:=x]> (<[i:=y]> l) ≡ₚ <[i:=x]> l.
Proof.
  intros Hij Hi Hj.
  destruct (lookup_lt_is_Some_2 l i Hi) as [z Hz].
  apply (inj (cons y)), (inj (cons z)).
  rewrite (insert_cons_perm (<[i:=y]> l) j x y)
    by (by rewrite list_lookup_insert_ne).
  rewrite (perm_swap x z), (insert_cons_perm l i y z Hz).
  rewrite (perm_swap y z), (insert_cons_perm l i x z Hz).
  apply perm_swap.
Qed.

Lemma is_heap_nil : is_heap key [].
Proof. intros i x p _ Hx. by rewrite lookup_nil in Hx. Qed.

(** The root of a heap is a minimum. *)
Lemma is_heap_root_min h r x :
  is_heap key h → h !! 0 = Some r → x ∈ h → (key r ≤ key x)%Z.
Proof.
  intros Hh Hr [i Hi]%list_elem_of_lookup. revert x Hi.
  induction (lt_wf i) as [i _ IH]; intros x Hi.
  destruct (decide (i = 0)) as [->|Hne]; [simplify_eq; lia|].
  assert (Hlt : (i - 1) / 2 < i) by lia.
  destruct (lookup_lt_is_Some_2 h ((i - 1) / 2)) as [p Hp].
  { apply lookup_lt_Some in Hi. lia. }
  pose proof (IH _ Hlt _ Hp). pose proof (Hh i x p ltac:(lia) Hi Hp). lia.
Qed.

Lemma getitem_Ok (l : list A) i x : l !! i = Some x → getitem l i = Ok x.
Proof. unfold getitem. by intros ->. Qed.

Lemma setitem_Ok (l : list A) i x :
  i < length l → setitem l i x = Ok (<[i:=x]> l).
Proof. unfold setitem. intros. by rewrite decide_True. Qed.

Lemma down_inv_place h pos newitem :
  pos < length h →
  down_inv key h pos newitem →
  (0 < pos → ∀ p, h !! ((pos - 1) / 2) = Some p → (key p ≤ key newitem)%Z) →
  is_heap key (<[pos:=newitem]> h).
Proof.
  intros Hpos [H1 H2] Hp i x p Hi Hx Hpar.
  apply list_lookup_insert_Some in Hx as [(<- & <- & _)|[Hne Hx]];
    apply list_lookup_insert_Some in Hpar as [(Heq & <- & _)|[Hne' Hpar]].
  - lia.
  - apply Hp; [lia|done].
  - destruct (H2 i x) as [? _]; auto.
  - apply (H1 i x p); auto.
Qed.

Lemma down_inv_step h pos newitem parent :
  0 < pos → pos < length h →
  h !! ((pos - 1) / 2) = Some parent →
  (key newitem < key parent)%Z →
  down_inv key h pos newitem →
  down_inv key (<[pos:=parent]> h) ((pos - 1) / 2) newitem.
Proof.
  intros Hpos Hlen Hpar Hlt [H1 H2].
  assert (Hgp : 0 < (pos - 1) / 2 → ∀ g,
    h !! (((pos - 1) / 2 - 1) / 2) = Some g → (key g ≤ key parent)%Z).
  { intros ? g Hg. apply (H1 ((pos - 1) / 2) parent g); auto; lia. }
  split.
  - intros i x p Hi Hne Hne' Hx Hp.
    rewrite list_lookup_insert_ne in Hx by congruence.
    apply list_lookup_insert_Some in Hp as [(Heq & <- & _)|[Hne'' Hp]].
    + destruct (H2 i x) as [_ Hg]; auto.
    + apply (H1 i x p); auto; congruence.
  - intros c x Hc Hcp Hx.
    assert (Hg' : ∀ g, <[pos:=parent]> h !! (((pos - 1) / 2 - 1) / 2) = Some g →
              h !! (((pos - 1) / 2 - 1) / 2) = Some g).
    { intros g. rewrite list_lookup_insert_ne by lia. done. }
    apply list_lookup_insert_Some in Hx as [(<- & <- & _)|[Hne Hx]].
    + split; [lia|]. intros ? g Hg%Hg'. by apply Hgp.
    + assert (key parent ≤ key x)%Z.
      { apply (H1 c x parent); auto; try lia. by rewrite Hcp. }
      split; [lia|]. intros ? g Hg%Hg'. specialize (Hgp ltac:(done) g Hg). lia.
Qed.

Lemma siftdown_loop_spec fuel h newitem pos :
  pos ≤ fuel → pos < length h →
  ∃ h', siftdown_loop (key_lt key) fuel h newitem 0 pos = Ok h' ∧
        h' ≡ₚ <[pos:=newitem]> h ∧
        (down_inv key h pos newitem → is_heap key h').
Proof.
  revert h pos. induction fuel as [|fuel IH]; intros h pos Hfuel Hlen.
  - assert (pos = 0) as -> by lia. simpl.
    rewrite setitem_Ok by done. eexists; split_and!; [done..|].
    intros Hinv. apply down_inv_place; [done..|lia].
  - simpl. case_decide as Hpos.
    + destruct (lookup_lt_is_Some_2 h ((pos - 1) / 2)) as [parent Hpar]; [lia|].
      rewrite (getitem_Ok _ _ _ Hpar). simpl.
      unfold key_lt at 1. case_bool_decide as Hlt.
      * rewrite setitem_Ok by done. simpl.
        destruct (IH (<[pos:=parent]> h) ((pos - 1) / 2)) as (h' & -> & Hperm & Hheap).
        { lia. } { rewrite length_insert. lia. }
        eexists; split_and!; [done| |].
        -- rewrite Hperm. apply insert_insert_perm; [lia|done..].
        -- intros Hinv. apply Hheap. by apply down_inv_step.
      * rewrite setitem_Ok by done. eexists; split_and!; [done..|].
        intros Hinv. apply down_inv_place; [done..|].
        intros _ p Hp. simplify_eq. lia.
    + assert (pos = 0) as -> by lia.
      rewrite setitem_Ok by done. eexists; split_and!; [done..|].
      intros Hinv. apply down_inv_place; [done..|lia].
Qed.

Lemma up_inv_step h pos c hc :
  0 < c → (c - 1) / 2 = pos → h !! c = Some hc →
  (∀ s hs, 0 < s → s ≠ c → (s - 1) / 2 = pos → h !! s = Some hs →
     (key hc ≤ key hs)%Z) →
  up_inv key h pos → up_inv key (<[pos:=hc]> h) c.
Proof.
  intros Hc Hcp Hhc Hsib Hinv i x Hi Hne Hx.
  assert (Hposc : pos < c) by lia.
  apply list_lookup_insert_Some in Hx as [(<- & <- & _)|[Hne' Hx]].
  - split; [|lia]. intros _ p Hp.
    rewrite list_lookup_insert_ne in Hp by lia.
    destruct (Hinv c hc) as [_ Hg]; auto; try lia.
  - split.
    + intros Hne'' p Hp.
      apply list_lookup_insert_Some in Hp as [(Heq & <- & _)|[Hne3 Hp]].
      * apply (Hsib i x); auto.
      * destruct (Hinv i x) as [Hpar _]; auto.
    + intros Heq _ g Hg.
      rewrite Hcp, list_lookup_insert_eq in Hg by (apply lookup_lt_Some in Hx; lia).
      simplify_eq.
      destruct (Hinv i x) as [Hpar _]; auto.
      apply Hpar; [lia|done].
Qed.

Lemma siftup_loop_spec fuel h endpos pos :
  endpos = length h → endpos ≤ fuel + pos → pos < endpos →
  ∃ h' pos',
    siftup_loop (key_lt key) fuel h endpos pos (2 * pos + 1) = Ok (h', pos') ∧
    pos' < endpos ∧ length h' = endpos ∧ endpos ≤ 2 * pos' + 1 ∧
    (∀ x, <[pos':=x]> h' ≡ₚ <[pos:=x]> h) ∧
    (up_inv key h pos → up_inv key h' pos').
Proof.
  revert h pos. induction fuel as [|fuel IH]; intros h pos Hend Hfuel Hpos.
  { simpl. rewrite decide_False by lia. eexists _, _. split_and!; eauto; lia. }
  simpl. case_decide as Hchild; last first.
  { eexists _, _. split_and!; eauto; lia. }
  destruct (lookup_lt_is_Some_2 h (2 * pos + 1)) as [l Hl]; [lia|].
  assert (∃ c hc, 0 < c ∧ (c - 1) / 2 = pos ∧ c < endpos ∧ h !! c = Some hc ∧
    (∀ s hs, 0 < s → s ≠ c → (s - 1) / 2 = pos → h !! s = Some hs →
       (key hc ≤ key hs)%Z) ∧
    (if decide (2 * pos + 1 + 1 < endpos) then
       l ← getitem h (2 * pos + 1);
       r ← getitem h (2 * pos + 1 + 1);
       Ok (if negb ((key_lt key) l r) then 2 * pos + 1 + 1 else 2 * pos + 1)
     else Ok (2 * pos + 1)) = Ok c) as (c & hc & Hc & Hcp & Hcend & Hhc & Hsib & ->).
  { case_decide as Hright.
    - destruct (lookup_lt_is_Some_2 h (2 * pos + 1 + 1)) as [r Hr]; [lia|].
      rewrite (getitem_Ok _ _ _ Hl), (getitem_Ok _ _ _ Hr). simpl.
      unfold key_lt. case_bool_decide as Hlt; simpl.
      + exists (2 * pos + 1), l. split_and!; auto; try lia.
        intros s hs Hs Hne Hsp Hhs.
        assert (s = 2 * pos + 1 + 1) as -> by lia. simplify_eq. lia.
      + exists (2 * pos + 1 + 1), r. split_and!; auto; try lia.
        intros s hs Hs Hne Hsp Hhs.
        assert (s = 2 * pos + 1) as -> by lia. simplify_eq. lia.
    - exists (2 * pos + 1), l. split_and!; auto; try lia.
      intros s hs Hs Hne Hsp Hhs. apply lookup_lt_Some in Hhs. lia. }
  simpl. rewrite (getitem_Ok _ _ _ Hhc). simpl.
  rewrite setitem_Ok by lia. simpl.
  destruct (IH (<[pos:=hc]> h) c) as (h' & pos' & -> & ? & ? & ? & Hperm & Hinv).
  { by rewrite length_insert. } { lia. } { lia. }
  eexists _, _. split_and!; eauto.
  - intros x. rewrite Hperm. apply insert_insert_perm; [lia..|done].
  - intros Hup. apply Hinv. by apply up_inv_step.
Qed.

Lemma siftup_spec h :
  0 < length h →
  ∃ h', _siftup (key_lt key) h 0 = Ok h' ∧ h' ≡ₚ h ∧ (up_inv key h 0 → is_heap key h').
Proof.
  intros Hlen. unfold _siftup.
  destruct (lookup_lt_is_Some_2 h 0 Hlen) as [newitem Hnew].
  rewrite (getitem_Ok _ _ _ Hnew). simpl.
  destruct (siftup_loop_spec (length h) h (length h) 0)
    as (h1 & p & Hloop & Hp & Hlen1 & Hleaf & Hperm & Hinv); [done|lia|done|].
  change (2 * 0 + 1) with 1 in Hloop. rewrite Hloop.
  simpl. rewrite setitem_Ok by lia. simpl.
  unfold _siftdown.
  rewrite (getitem_Ok _ _ newitem)
    by (apply list_lookup_insert_eq; lia). simpl.
  destruct (siftdown_loop_spec p (<[p:=newitem]> h1) newitem p)
    as (h3 & -> & Hperm3 & Hheap); [done|rewrite length_insert; lia|].
  exists h3. split_and!; [done| |].
  - rewrite Hperm3, list_insert_insert_eq, Hperm. by rewrite list_insert_id.
  - intros Hup. apply Hheap. specialize (Hinv Hup). split.
    + intros i x q Hi Hne Hne' Hx Hq.
      rewrite list_lookup_insert_ne in Hx by done.
      rewrite list_lookup_insert_ne in Hq by done.
      destruct (Hinv i x) as [Hpar _]; auto.
    + intros c x Hc Hcp Hx. apply lookup_lt_Some in Hx.
      rewrite length_insert in Hx. lia.
Qed.

(** [heappush] never raises, keeps the elements and the invariant. *)
Lemma heappush_spec h x :
  ∃ h', heappush (key_lt key) h x = Ok h' ∧ h' ≡ₚ x :: h ∧ (is_heap key h → is_heap key h').
Proof.
  unfold heappush, _siftdown. rewrite length_app. simpl.
  replace (length h + 1 - 1) with (length h) by lia.
  rewrite (getitem_Ok _ _ x) by (by rewrite list_lookup_middle). simpl.
  destruct (siftdown_loop_spec (length h) (h ++ [x]) x (length h))
    as (h' & -> & Hperm & Hheap); [done|rewrite length_app; simpl; lia|].
  exists h'. split_and!; [done| |].
  - rewrite Hperm, list_insert_id by (by rewrite list_lookup_middle).
    by rewrite Permutation_app_comm.
  - intros Hh. apply Hheap. split.
    + intros i y p Hi Hne Hne' Hy Hp.
      assert (i < length h).
      { apply lookup_lt_Some in Hy. rewrite length_app in Hy. simpl in Hy. lia. }
      rewrite lookup_app_l in Hy by lia. rewrite lookup_app_l in Hp by lia.
      by apply (Hh i).
    + intros c y Hc Hcp Hy. apply lookup_lt_Some in Hy.
      rewrite length_app in Hy. simpl in Hy. lia.
Qed.

Lemma heappop_nil : heappop (key_lt key) [] = Raise IndexError.
Proof. reflexivity. Qed.

(** [heappop] on a non-empty heap returns the root, which is a minimum,
    and keeps the other elements and the invariant. *)
Lemma heappop_spec h :
  h ≠ [] →
  ∃ x h', heappop (key_lt key) h = Ok (x, h') ∧ head h = Some x ∧ h ≡ₚ x :: h' ∧
    (is_heap key h → is_heap key h' ∧ ∀ y, y ∈ h → (key x ≤ key y)%Z).
Proof.
  intros Hne. destruct (exists_last Hne) as (h0 & lst & ->).
  unfold heappop, list_pop. rewrite last_snoc, removelast_last. simpl.
  destruct h0 as [|r t]; simpl.
  { exists lst, []. split_and!; [done..|]. intros _. split; [apply is_heap_nil|].
    intros y ->%list_elem_of_singleton. lia. }
  destruct (siftup_spec (lst :: t)) as (h' & -> & Hperm & Hheap); [simpl; lia|].
  simpl.
  exists r, h'. split_and!; [done..| |].
  - rewrite Hperm. by rewrite <-Permutation_cons_append.
  - intros Hh. split.
    + apply Hheap. intros i x Hi Hne' Hx. split; [|lia].
      intros Hpar p Hp. apply (Hh i x p); [done| |].
      * destruct i as [|i]; [lia|]. simpl in *. by apply lookup_app_l_Some.
      * destruct ((i - 1) / 2) as [|j] eqn:Hj; [lia|].
        simpl in *. by apply lookup_app_l_Some.
    + intros y Hy. by apply (is_heap_root_min (r :: t ++ [lst]) r y).
Qed.

End heapq_facts.

(** ** Trees: leaves, code words, and the forests of the merge loop *)

Section trees.
Context {Sym : Type} `{Countable Sym}.
Implicit Types (t : HuffmanNode Sym) (F : list (HuffmanNode Sym)).

Lemma paths_fst t : (paths t).*1 = (leaves t).*1.
Proof.
  induction t as [|f l IHl r IHr]; simpl; [done|].
  rewrite !fmap_app, <-!list_fmap_compose, <-IHl, <-IHr.
  f_equal; by apply list_fmap_ext; intros ? [].
Qed.

Lemma builds_leaves F t : builds F t → leaves t ≡ₚ F ≫= leaves.
Proof.
  induction 1 as [t|F F' t [n1 n2 rest HF _ _ HF'] _ IH]; simpl.
  - by rewrite app_nil_r.
  - rewrite IH, HF', HF. simpl. by rewrite (assoc_L (++)).
Qed.

Lemma builds_well_weighted F t :
  builds F t → Forall well_weighted F → well_weighted t.
Proof.
  induction 1 as [t|F F' t [n1 n2 rest HF _ _ HF'] _ IH]; intros HFw.
  - by inversion HFw.
  - apply IH. rewrite HF'. rewrite HF in HFw.
    apply Forall_cons in HFw as [? [? ?]%Forall_cons].
    apply Forall_cons. simpl. auto.
Qed.

Lemma builds_length F t : builds F t → 0 < length F.
Proof.
  induction 1 as [t|F F' t [n1 n2 rest HF _ _ HF'] _ IH]; simpl; [lia|].
  rewrite HF. simpl. lia.
Qed.

(** A forest of two or more trees is merged into a merged node. *)
Lemma builds_internal F t :
  builds F t → 1 < length F → ∃ f l r, t = Internal f l r.
Proof.
  induction 1 as [t|F F' t [n1 n2 rest HF _ _ HF'] Hb IH]; simpl; [lia|].
  intros _. destruct (decide (1 < length F')) as [|Hle]; [auto|].
  rewrite HF' in Hle. destruct rest; simpl in Hle; [|lia].
  inversion Hb as [t' Heq|F1 F2 t' [m1 m2 rest' HF1 _ _ _] _]; subst.
  - apply Permutation_singleton_r in HF'. simplify_eq. eauto.
  - rewrite HF' in HF1. apply Permutation_length in HF1. simpl in HF1. lia.
Qed.

End trees.

(** ** Tree building *)

Section build.
Context {Sym : Type} `{Countable Sym}.
Implicit Types (t : HuffmanNode Sym) (heap F : list (HuffmanNode Sym)).

Lemma node_lt_key : @node_lt Sym = key_lt freq.
Proof. reflexivity. Qed.

Lemma huffman_step_perm F G F' : F ≡ₚ G → huffman_step F F' → huffman_step G F'.
Proof.
  intros HFG [n1 n2 rest HF Hmin1 Hmin2 HF'].
  apply (huffman_step_intro _ _ n1 n2 rest); [by rewrite <-HFG| |done..].
  intros n Hn. apply Hmin1. by rewrite HFG.
Qed.

Lemma builds_perm F G t : F ≡ₚ G → builds F t → builds G t.
Proof.
  intros HFG Hb. revert G HFG. destruct Hb as [t|F F' t Hstep Hb]; intros G HFG.
  - apply Permutation_singleton_l in HFG as <-. constructor.
  - eapply builds_step; [|done]. by eapply huffman_step_perm.
Qed.

Lemma merge_step_spec heap :
  is_heap freq heap → 1 < length heap →
  ∃ node1 h1 node2 h2 heap',
    heappop node_lt heap = Ok (node1, h1) ∧
    heappop node_lt h1 = Ok (node2, h2) ∧
    heappush node_lt h2 (Internal (freq node1 + freq node2) node1 node2)
      = Ok heap' ∧
    merge_step heap = Ok heap' ∧
    heap ≡ₚ node1 :: h1 ∧ h1 ≡ₚ node2 :: h2 ∧
    (∀ n, n ∈ heap → (freq node1 ≤ freq n)%Z) ∧
    (∀ n, n ∈ h1 → (freq node2 ≤ freq n)%Z) ∧
    heap' ≡ₚ Internal (freq node1 + freq node2) node1 node2 :: h2 ∧
    is_heap freq heap'.
Proof.
  intros Hheap Hlen. unfold merge_step. rewrite node_lt_key.
  destruct (heappop_spec freq heap) as (n1 & h1 & Hpop1 & _ & Hp1 & Hh1).
  { destruct heap; simpl in *; [lia|done]. }
  destruct (Hh1 Hheap) as [Hheap1 Hmin1].
  destruct (heappop_spec freq h1) as (n2 & h2 & Hpop2 & _ & Hp2 & Hh2).
  { apply Permutation_length in Hp1. destruct h1; simpl in *; [lia|done]. }
  destruct (Hh2 Hheap1) as [Hheap2 Hmin2].
  destruct (heappush_spec freq h2 (Internal (freq n1 + freq n2) n1 n2))
    as (heap' & Hpush & Hp3 & Hh3).
  exists n1, h1, n2, h2, heap'.
  rewrite Hpop1. simpl. rewrite Hpop2. simpl. rewrite Hpush.
  split_and!; auto.
Qed.

Lemma merge_step_huffman_step heap heap' :
  is_heap freq heap → 1 < length heap → merge_step heap = Ok heap' →
  huffman_step heap heap' ∧ is_heap freq heap' ∧ S (length heap') = length heap.
Proof.
  intros Hheap Hlen Hstep.
  destruct (merge_step_spec heap Hheap Hlen)
    as (n1 & h1 & n2 & h2 & heap2 & _ & _ & _ & Hstep' & Hp1 & Hp2 & Hm1 & Hm2 & Hp3 & Hh).
  rewrite Hstep in Hstep'. simplify_eq. split_and!; [|done|].
  - apply (huffman_step_intro _ _ n1 n2 h2); [by rewrite Hp1, Hp2|done| |done].
    intros n Hn. apply Hm2. by rewrite Hp2.
  - rewrite Hp3, Hp1, Hp2. done.
Qed.

Lemma merge_loop_spec fuel heap :
  is_heap freq heap → 0 < length heap → length heap ≤ S fuel →
  ∃ t, merge_loop fuel heap = Ok [t] ∧ builds heap t.
Proof.
  revert heap. induction fuel as [|fuel IH]; intros heap Hheap Hpos Hfuel.
  - destruct heap as [|t [|??]]; simpl in *; try lia.
    exists t. split; [done|constructor].
  - simpl. case_decide as Hlen.
    + destruct (merge_step_spec heap Hheap Hlen)
        as (n1 & h1 & n2 & h2 & heap' & _ & _ & _ & Hstep & _).
      destruct (merge_step_huffman_step heap heap' Hheap Hlen Hstep)
        as (Hhs & Hheap' & Hlen').
      rewrite Hstep. simpl.
      destruct (IH heap' Hheap') as (t & -> & Hb); [lia..|].
      exists t. split; [done|]. by eapply builds_step.
    + destruct heap as [|t [|??]]; simpl in *; try lia.
      exists t. split; [done|constructor].
Qed.

Lemma seed_heap_spec items heap :
  is_heap freq heap →
  ∃ heap', seed_heap heap items = Ok heap' ∧
    heap' ≡ₚ heap ++ (uncurry Leaf <$> items) ∧ is_heap freq heap'.
Proof.
  revert heap. induction items as [|[c f] items IH]; intros heap Hheap; simpl.
  - exists heap. by rewrite app_nil_r.
  - rewrite node_lt_key.
    destruct (heappush_spec freq heap (Leaf c f)) as (h1 & -> & Hp1 & Hh1).
    simpl. destruct (IH h1 (Hh1 Hheap)) as (heap' & -> & Hp & Hh).
    exists heap'. split_and!; [done| |done].
    rewrite Hp, Hp1. by rewrite <-Permutation_middle.
Qed.

(** [build_huffman_tree] never raises; on a table with entries it returns
    a tree that the merge steps make of the table's leaves. *)
Lemma build_huffman_tree_spec freq_table :
  freq_table ≠ [] →
  ∃ t, build_huffman_tree freq_table = Ok (Some t) ∧
       builds (uncurry Leaf <$> freq_table) t.
Proof.
  intros Hne. unfold build_huffman_tree.
  destruct freq_table as [|e ft]; [done|].
  destruct (seed_heap_spec (e :: ft) []) as (heap & -> & Hp & Hh);
    [apply is_heap_nil|].
  simpl in Hp. simpl mbind at 1.
  destruct (merge_loop_spec (length heap) heap Hh) as (t & -> & Hb).
  { rewrite Hp. simpl. lia. } { lia. }
  exists t. split; [done|]. by apply (builds_perm heap).
Qed.

Lemma build_huffman_tree_nil : build_huffman_tree (Sym:=Sym) [] = Ok None.
Proof. reflexivity. Qed.

Lemma leaves_of_table (ft : list (Sym * Z)) : (uncurry Leaf <$> ft) ≫= leaves = ft.
Proof. induction ft as [|[c f] ft IH]; simpl; by f_equal. Qed.

Lemma build_huffman_tree_leaves freq_table t :
  build_huffman_tree freq_table = Ok (Some t) → leaves t ≡ₚ freq_table.
Proof.
  intros Ht. destruct (decide (freq_table = [])) as [->|Hne]; [done|].
  destruct (build_huffman_tree_spec _ Hne) as (t' & Ht' & Hb).
  rewrite Ht in Ht'. simplify_eq.
  by rewrite (builds_leaves _ _ Hb), leaves_of_table.
Qed.

End build.

(** ** Code generation *)

Section insert_all.
Context {K V : Type} `{Countable K} `{EqDecision V}.
Implicit Types (m : gmap K V) (L : list (K * V)).

Lemma insert_all_app m L1 L2 :
  insert_all m (L1 ++ L2) = insert_all (insert_all m L1) L2.
Proof. apply foldl_app. Qed.

Lemma insert_all_notin m L k : k ∉ L.*1 → insert_all m L !! k = m !! k.
Proof.
  revert m. induction L as [|[k0 v0] L IH]; intros m Hk; [done|].
  rewrite fmap_cons in Hk. apply not_elem_of_cons in Hk as [Hne Hk]. simpl in Hne.
  change (insert_all (<[k0:=v0]> m) L !! k = m !! k).
  rewrite IH by done. by rewrite lookup_insert_ne.
Qed.

Lemma insert_all_Some m L k v :
  insert_all m L !! k = Some v → (k, v) ∈ L ∨ m !! k = Some v.
Proof.
  revert m. induction L as [|[k0 v0] L IH]; intros m Hk; [by right|].
  change (insert_all (<[k0:=v0]> m) L !! k = Some v) in Hk.
  destruct (IH _ Hk) as [Hin|Hm]; [left; by right|].
  apply lookup_insert_Some in Hm as [[-> ->]|[_ Hm]]; [left; by left|by right].
Qed.

Lemma insert_all_in m L k v :
  (∀ v', (k, v') ∈ L → v' = v) → (k, v) ∈ L → insert_all m L !! k = Some v.
Proof.
  revert m. induction L as [|[k0 v0] L IH]; intros m Hfun Hin.
  { by apply elem_of_nil in Hin. }
  destruct (decide ((k, v) ∈ L)) as [Hin'|Hnin].
  - change (insert_all (<[k0:=v0]> m) L !! k = Some v).
    apply IH; [|done]. intros v' Hv'. apply Hfun. by right.
  - apply elem_of_cons in Hin as [Heq|?]; [|done]. injection Heq as -> ->.
    change (insert_all (<[k0:=v0]> m) L !! k0 = Some v0).
    rewrite insert_all_notin, lookup_insert_eq; [done|].
    intros ([k' v'] & ? & Hin)%list_elem_of_fmap; simplify_eq/=.
    rewrite (Hfun v') in Hin; [done|by right].
Qed.

End insert_all.

Lemma NoDup_fst_functional {A B} (l : list (A * B)) x y1 y2 :
  NoDup l.*1 → (x, y1) ∈ l → (x, y2) ∈ l → y1 = y2.
Proof.
  induction l as [|[a b] l IH]; simpl; intros Hnd H1 H2.
  { by apply elem_of_nil in H1. }
  apply NoDup_cons in Hnd as [Hnin Hnd].
  apply elem_of_cons in H1 as [?|H1]; apply elem_of_cons in H2 as [?|H2];
    simplify_eq; auto.
  - destruct Hnin. by apply (list_elem_of_fmap_2' fst _ (a, y2)).
  - destruct Hnin. by apply (list_elem_of_fmap_2' fst _ (a, y1)).
Qed.

Section codegen.
Context {Sym : Type} `{Countable Sym}.
Implicit Types (t : HuffmanNode Sym) (self : Coder Sym).

Lemma generate_codes_node_spec self t code :
  codes (generate_codes_node self t code)
    = insert_all (codes self) (prod_map id (app code) <$> paths t) ∧
  reverse_codes (generate_codes_node self t code)
    = insert_all (reverse_codes self) ((λ cp, (code ++ cp.2, cp.1)) <$> paths t).
Proof.
  revert self code. induction t as [c f|f l IHl r IHr]; intros self code; simpl.
  { by rewrite app_nil_r. }
  destruct (IHr (generate_codes_node self l (code ++ ["0"%char]))
              (code ++ ["1"%char])) as [-> ->].
  destruct (IHl self (code ++ ["0"%char])) as [-> ->].
  assert (∀ b (u : HuffmanNode Sym), prod_map id (app (code ++ [b])) <$> paths u
            = prod_map id (app code) <$> (prod_map id (cons b) <$> paths u)) as Hc.
  { intros b u. rewrite <-list_fmap_compose.
    apply list_fmap_ext; intros _ [c p] _; simpl. by rewrite <-(assoc_L (++)). }
  assert (∀ b (u : HuffmanNode Sym), (λ cp, ((code ++ [b]) ++ cp.2, cp.1)) <$> paths u
            = (λ cp, (code ++ cp.2, cp.1)) <$> (prod_map id (cons b) <$> paths u))
    as Hr.
  { intros b u. rewrite <-list_fmap_compose.
    apply list_fmap_ext; intros _ [c p] _; simpl. by rewrite <-(assoc_L (++)). }
  by rewrite !fmap_app, !insert_all_app, !Hc, !Hr.
Qed.

(** No code word of a tree is a prefix of the code word of another leaf. *)
Lemma paths_prefix t c1 p1 c2 p2 :
  (c1, p1) ∈ paths t → (c2, p2) ∈ paths t → p1 `prefix_of` p2 →
  c1 = c2 ∧ p1 = p2.
Proof.
  revert p1 p2. induction t as [c f|f l IHl r IHr]; intros p1 p2; simpl.
  { by intros [=-> ->]%list_elem_of_singleton [=-> ->]%list_elem_of_singleton. }
  rewrite !elem_of_app, !list_elem_of_fmap.
  intros [([] & [=-> ->] & H1)|([] & [=-> ->] & H1)]
         [([] & [=-> ->] & H2)|([] & [=-> ->] & H2)] Hpre; simpl in *.
  - apply prefix_cons_inv_2 in Hpre.
    destruct (IHl _ _ H1 H2 Hpre) as [-> ->]. done.
  - by apply prefix_cons_inv_1 in Hpre.
  - by apply prefix_cons_inv_1 in Hpre.
  - apply prefix_cons_inv_2 in Hpre.
    destruct (IHr _ _ H1 H2 Hpre) as [-> ->]. done.
Qed.

Lemma codes_lookup t c p :
  NoDup (leaves t).*1 →
  codes (tables_of (Some t)) !! c = Some p ↔ (c, p) ∈ paths t.
Proof.
  intros Hnd. unfold tables_of. simpl.
  destruct (generate_codes_node_spec new_coder t []) as [-> _].
  assert (prod_map id (app []) <$> paths t = paths t) as ->.
  { rewrite <-(list_fmap_id (paths t)) at 2.
    apply list_fmap_ext. by intros _ [] _. }
  simpl. split.
  - intros [?|Hm]%insert_all_Some; [done|]. by rewrite lookup_empty in Hm.
  - intros Hin. apply insert_all_in; [|done].
    intros p' Hp'. eapply NoDup_fst_functional; [|done..]. by rewrite paths_fst.
Qed.

Lemma reverse_codes_lookup t c p :
  reverse_codes (tables_of (Some t)) !! p = Some c ↔ (c, p) ∈ paths t.
Proof.
  unfold tables_of. simpl.
  destruct (generate_codes_node_spec new_coder t []) as [_ ->]. simpl.
  assert (∀ c p, (p, c) ∈ (λ cp, (cp.2, cp.1)) <$> paths t ↔ (c, p) ∈ paths t)
    as Hswap.
  { intros c' p'. rewrite list_elem_of_fmap. split.
    - by intros ([] & [=-> ->] & ?).
    - intros ?. by exists (c', p'). }
  split.
  - intros [Hin|Hm]%insert_all_Some; [by apply Hswap|].
    by rewrite lookup_empty in Hm.
  - intros Hin. apply insert_all_in; [|by apply Hswap].
    intros c' Hc'%Hswap. by destruct (paths_prefix t c' p c p).
Qed.

Lemma consistent_new : consistent (new_coder (Sym:=Sym)).
Proof. intros p c. unfold new_coder. simpl. by rewrite lookup_empty. Qed.

Lemma consistent_tables_of root :
  (∀ t, root = Some t → NoDup (leaves t).*1) → consistent (tables_of root).
Proof.
  destruct root as [t|]; [|intros _; apply consistent_new].
  intros Hnd p c. rewrite reverse_codes_lookup, codes_lookup; auto.
Qed.

End codegen.

(** ** The frequency table *)

Section frequency.
Context {Sym : Type} `{Countable Sym}.
Implicit Types (ft : list (Sym * Z)) (text : list Sym).

Lemma count_up_keys c ft s : s ∈ (count_up c ft).*1 ↔ s = c ∨ s ∈ ft.*1.
Proof.
  induction ft as [|[k n] ft IH]; simpl.
  - rewrite list_elem_of_singleton, elem_of_nil. tauto.
  - destruct (decide (k = c)) as [->|Hkc]; simpl; rewrite !elem_of_cons;
      [|rewrite IH]; tauto.
Qed.

Lemma count_up_NoDup c ft : NoDup ft.*1 → NoDup (count_up c ft).*1.
Proof.
  induction ft as [|[k n] ft IH]; simpl; intros Hnd.
  - apply NoDup_singleton.
  - apply NoDup_cons in Hnd as [Hk Hnd]. case_decide; simpl.
    + by apply NoDup_cons.
    + apply NoDup_cons. split; [|auto]. rewrite count_up_keys. by intros [->|?].
Qed.

Lemma count_up_count_of c ft s :
  count_of (count_up c ft) s = (count_of ft s + if decide (c = s) then 1 else 0)%Z.
Proof.
  induction ft as [|[k n] ft IH]; simpl.
  - destruct (decide (c = s)); lia.
  - destruct (decide (k = c)) as [->|Hkc]; simpl.
    + destruct (decide (c = s)); lia.
    + destruct (decide (k = s)) as [->|Hks]; [|done].
      rewrite decide_False by done. lia.
Qed.

Lemma count_up_weighted_sum g c ft :
  weighted_sum g (count_up c ft) = (weighted_sum g ft + g c)%Z.
Proof.
  induction ft as [|[k n] ft IH]; simpl; [lia|].
  destruct (decide (k = c)) as [->|Hkc]; simpl; [lia|]. rewrite IH. lia.
Qed.

Lemma count_of_elem ft s n : NoDup ft.*1 → (s, n) ∈ ft → count_of ft s = n.
Proof.
  induction ft as [|[k m] ft IH]; simpl; intros Hnd Hin.
  { by apply elem_of_nil in Hin. }
  apply NoDup_cons in Hnd as [Hk Hnd].
  apply elem_of_cons in Hin as [?|Hin]; simplify_eq.
  - by rewrite decide_True.
  - rewrite decide_False; [auto|]. intros ->. destruct Hk.
    by apply (list_elem_of_fmap_2' fst _ (s, n)).
Qed.

Section tally.
Context (acc : list (Sym * Z)).

Lemma tally_keys text s : s ∈ (tally acc text).*1 ↔ s ∈ text ∨ s ∈ acc.*1.
Proof.
  unfold tally. revert acc. induction text as [|c text IH]; intros acc; simpl.
  - rewrite elem_of_nil. tauto.
  - rewrite IH, count_up_keys, elem_of_cons. tauto.
Qed.

Lemma tally_NoDup text : NoDup acc.*1 → NoDup (tally acc text).*1.
Proof.
  unfold tally. revert acc. induction text as [|c text IH]; intros acc; simpl.
  - done.
  - intros Hnd. by apply IH, count_up_NoDup.
Qed.

Lemma tally_count_of text s :
  count_of (tally acc text) s = (count_of acc s + occurrences s text)%Z.
Proof.
  unfold tally. revert acc. unfold occurrences.
  induction text as [|c text IH]; intros acc; simpl; [lia|].
  rewrite IH, count_up_count_of, filter_cons.
  destruct (decide (c = s)); simpl; lia.
Qed.

Lemma tally_weighted_sum g text :
  weighted_sum g (tally acc text)
    = (weighted_sum g acc + foldr (λ c a, g c + a) 0 text)%Z.
Proof.
  unfold tally. revert acc. induction text as [|c text IH]; intros acc; simpl.
  - lia.
  - rewrite IH, count_up_weighted_sum. lia.
Qed.
End tally.

Lemma build_frequency_table_keys text s :
  s ∈ (build_frequency_table text).*1 ↔ s ∈ text.
Proof.
  change (build_frequency_table text) with (tally [] text).
  rewrite tally_keys. simpl.
  rewrite elem_of_nil. tauto.
Qed.

Lemma build_frequency_table_NoDup text : NoDup (build_frequency_table text).*1.
Proof. apply tally_NoDup. constructor. Qed.

Lemma build_frequency_table_count text s n :
  (s, n) ∈ build_frequency_table text → n = occurrences s text ∧ (0 < n)%Z.
Proof.
  intros Hin.
  assert (n = occurrences s text) as ->.
  { rewrite <-(count_of_elem _ _ _ (build_frequency_table_NoDup text) Hin).
    change (build_frequency_table text) with (tally [] text).
    rewrite tally_count_of. simpl. lia. }
  split; [done|].
  assert (s ∈ text) as Hs.
  { apply build_frequency_table_keys.
    by apply (list_elem_of_fmap_2' fst _ (s, occurrences s text)). }
  unfold occurrences.
  assert (s ∈ filter (λ c, c = s) text) as Hf by (by apply list_elem_of_filter).
  destruct (filter _ text); [by apply elem_of_nil in Hf|simpl; lia].
Qed.

Lemma build_frequency_table_weighted_sum g text :
  weighted_sum g (build_frequency_table text) = foldr (λ c a, g c + a)%Z 0%Z text.
Proof.
  change (build_frequency_table text) with (tally [] text).
  rewrite tally_weighted_sum. simpl. lia.
Qed.

Lemma build_frequency_table_nil text : build_frequency_table text = [] → text = [].
Proof.
  intros Hft. destruct text as [|c text]; [done|].
  assert (c ∈ (build_frequency_table (c :: text)).*1) as Hc.
  { apply build_frequency_table_keys. by left. }
  rewrite Hft in Hc. by apply elem_of_nil in Hc.
Qed.

End frequency.

(** ** Encoding and decoding against the tables of a tree *)

Section codec.
Context {Sym : Type} `{Countable Sym}.
Implicit Types (t : HuffmanNode Sym) (self : Coder Sym) (text : list Sym).

Lemma encode_loop_spec self text acc cws :
  Forall2 (λ c w, codes self !! c = Some w) text cws →
  encode_loop self text acc = Ok (acc ++ concat cws).
Proof.
  intros Hcws. revert acc.
  induction Hcws as [|c w text cws Hc _ IH]; intros acc; simpl.
  - by rewrite app_nil_r.
  - by rewrite Hc, IH, (assoc_L (++)).
Qed.

Lemma codewords_exist t text :
  (∀ c, c ∈ text → c ∈ (leaves t).*1) →
  ∃ cws, Forall2 (λ c w, (c, w) ∈ paths t) text cws.
Proof.
  induction text as [|c text IH]; intros Hin.
  - exists []. constructor.
  - destruct IH as [cws Hcws]; [intros; apply Hin; by right|].
    assert (c ∈ (paths t).*1) as ([c' p] & -> & Hp)%list_elem_of_fmap.
    { rewrite paths_fst. apply Hin. by left. }
    exists (p :: cws). by constructor.
Qed.

Lemma paths_internal_nonempty f (l r : HuffmanNode Sym) c p :
  (c, p) ∈ paths (Internal f l r) → p ≠ [].
Proof.
  simpl. rewrite elem_of_app, !list_elem_of_fmap.
  by intros [([] & [=-> ->] & _)|([] & [=-> ->] & _)].
Qed.

(** Reading the rest [p2] of the code word [p1 ++ p2] of [c] emits [c]. *)
Lemma decode_loop_codeword t c p1 p2 rest out :
  (c, p1 ++ p2) ∈ paths t → p2 ≠ [] →
  decode_loop (tables_of (Some t)) (p2 ++ rest) p1 out
    = decode_loop (tables_of (Some t)) rest [] (out ++ [c]).
Proof.
  revert p1. induction p2 as [|b p2 IH]; intros p1 Hin Hne; [done|].
  simpl. destruct (decide (p2 = [])) as [->|Hne2].
  - apply reverse_codes_lookup in Hin. by rewrite Hin.
  - destruct (reverse_codes (tables_of (Some t)) !! (p1 ++ [b])) as [c'|] eqn:Hc'.
    + apply reverse_codes_lookup in Hc'.
      destruct (paths_prefix t c' (p1 ++ [b]) c (p1 ++ b :: p2)) as [_ Heq];
        [done..| |].
      { apply prefix_app, prefix_cons, prefix_nil. }
      apply app_inv_head in Heq. by simplify_eq.
    + apply IH; [|done]. by rewrite <-(assoc_L (++)).
Qed.

Lemma decode_loop_concat t text cws rest out :
  Forall2 (λ c w, (c, w) ∈ paths t ∧ w ≠ []) text cws →
  decode_loop (tables_of (Some t)) (concat cws ++ rest) [] out
    = decode_loop (tables_of (Some t)) rest [] (out ++ text).
Proof.
  intros Hcws. revert out.
  induction Hcws as [|c w text cws [Hc Hw] _ IH]; intros out; simpl.
  - by rewrite app_nil_r.
  - rewrite <-(assoc_L (++)), (decode_loop_codeword t c [] w) by done.
    by rewrite IH, <-(assoc_L (++)).
Qed.

(** Reading a proper part of a code word emits nothing. *)
Lemma decode_loop_partial t c p q1 q2 out :
  (c, p) ∈ paths t → q1 ++ q2 `prefix_of` p → q1 ++ q2 ≠ p →
  decode_loop (tables_of (Some t)) q2 q1 out = out.
Proof.
  intros Hin. revert q1. induction q2 as [|b q2 IH]; intros q1 Hpre Hne; [done|].
  simpl. change (b :: q2) with ([b] ++ q2) in Hpre, Hne.
  rewrite (assoc_L (++) q1 [b] q2) in Hpre, Hne.
  destruct (reverse_codes (tables_of (Some t)) !! (q1 ++ [b])) as [c'|] eqn:Hc'.
  - apply reverse_codes_lookup in Hc'.
    destruct (paths_prefix t c' (q1 ++ [b]) c p) as [_ Heq]; [done..| |].
    { by eapply prefix_app_l. }
    subst p. destruct q2 as [|b' q2]; [by rewrite app_nil_r in Hne|].
    apply prefix_length in Hpre. rewrite !length_app in Hpre. simpl in Hpre. lia.
  - by apply IH.
Qed.


End codec.

(** ** What [encode] and [decode] compute *)

Section coder_facts.
Context {Sym : Type} `{Countable Sym}.
Implicit Types (t : HuffmanNode Sym) (self : Coder Sym) (text : list Sym).
Implicit Types (ft : list (Sym * Z)).

Lemma build_of_table ft :
  NoDup ft.*1 → ft ≠ [] →
  ∃ t, build_huffman_tree ft = Ok (Some t) ∧
       builds (uncurry Leaf <$> ft) t ∧
       leaves t ≡ₚ ft ∧ NoDup (leaves t).*1.
Proof.
  intros Hnd Hne. destruct (build_huffman_tree_spec ft Hne) as (t & Ht & Hb).
  exists t. pose proof (build_huffman_tree_leaves ft t Ht) as Hl.
  split_and!; [done..|]. by rewrite Hl.
Qed.

Lemma build_of_text text :
  text ≠ [] →
  ∃ t, build_huffman_tree (build_frequency_table text) = Ok (Some t) ∧
       builds (uncurry Leaf <$> build_frequency_table text) t ∧
       leaves t ≡ₚ build_frequency_table text ∧
       NoDup (leaves t).*1 ∧
       (∀ c, c ∈ text ↔ c ∈ (leaves t).*1).
Proof.
  intros Hne.
  destruct (build_of_table (build_frequency_table text)) as (t & Ht & Hb & Hl & Hnd).
  { apply build_frequency_table_NoDup. }
  { intros Hft. by apply build_frequency_table_nil in Hft. }
  exists t. split_and!; [done..|].
  intros c. by rewrite Hl, build_frequency_table_keys.
Qed.

Lemma tables_nonempty t : codes (tables_of (Some t)) ≠ ∅.
Proof.
  unfold tables_of. simpl. generalize (@nil ascii) (@new_coder Sym _ _).
  induction t as [c f|f l IHl r IHr]; intros code self; simpl; [|apply IHr].
  apply insert_non_empty.
Qed.

Lemma encode_spec self text :
  text ≠ [] →
  ∃ t cws,
    build_huffman_tree (build_frequency_table text) = Ok (Some t) ∧
    NoDup (leaves t).*1 ∧
    Forall2 (λ c w, (c, w) ∈ paths t) text cws ∧
    encode self text
      = Ok (concat cws, build_frequency_table text, tables_of (Some t)).
Proof.
  intros Hne. destruct (build_of_text text Hne) as (t & Ht & _ & _ & Hnd & Hin).
  destruct (codewords_exist t text) as [cws Hcws]; [intros c; apply Hin|].
  exists t, cws. split_and!; [done..|].
  unfold encode. destruct text as [|c0 text]; [done|].
  rewrite Ht, bind_Ok.
  change (generate_codes new_coder (Some t) []) with (tables_of (Some t)).
  rewrite (encode_loop_spec _ _ [] cws); [done|].
  eapply Forall2_impl; [done|]. intros c w ?. by apply codes_lookup.
Qed.

(** With tables in store, [decode] only runs its loop on them. *)
Lemma decode_stored self bits ft :
  codes self ≠ ∅ → ft ≠ [] →
  decode self bits ft = Ok (decode_loop self bits [] [], self).
Proof.
  intros Hcodes Hft. unfold decode.
  destruct bits as [|b bits]; [done|]. destruct ft as [|e ft]; [done|].
  by rewrite decide_False.
Qed.

(** Without, it builds the tree of its [freq_table] argument first. *)
Lemma decode_rebuild self bits ft root :
  codes self = ∅ → bits ≠ [] → ft ≠ [] →
  build_huffman_tree ft = Ok root →
  decode self bits ft
    = Ok (decode_loop (tables_of root) bits [] [], tables_of root).
Proof.
  intros Hcodes Hbits Hft Hroot. unfold decode.
  destruct bits as [|b bits]; [done|]. destruct ft as [|e ft]; [done|].
  rewrite decide_True by done. by rewrite Hroot.
Qed.

Lemma encode_consistent self text bits ft self' :
  consistent self → encode self text = Ok (bits, ft, self') → consistent self'.
Proof.
  intros Hself Henc. destruct (decide (text = [])) as [->|Hne].
  - simpl in Henc. by simplify_eq.
  - destruct (encode_spec self text Hne) as (t & cws & _ & Hnd & _ & Henc').
    rewrite Henc in Henc'. simplify_eq.
    apply consistent_tables_of. by intros ? [= <-].
Qed.

(** A text with two different symbols gets a tree with a merged root, and
    no code word is empty. *)
Lemma two_symbols_internal text t a b :
  a ∈ text → b ∈ text → a ≠ b →
  builds (uncurry Leaf <$> build_frequency_table text) t →
  ∃ f l r, t = Internal f l r.
Proof.
  intros Ha Hb Hab Hbuilds. apply (builds_internal _ _ Hbuilds).
  rewrite length_fmap.
  apply build_frequency_table_keys in Ha, Hb.
  destruct (build_frequency_table text) as [|[k1 n1] [|[k2 n2] ft]]; simpl in *;
    [by apply elem_of_nil in Ha| |lia].
  apply list_elem_of_singleton in Ha, Hb. congruence.
Qed.

(** Round trip for a text with at least two different symbols, decoding
    with the coder that encoded or with a fresh one. *)
Lemma roundtrip_two_symbols self text a b :
  a ∈ text → b ∈ text → a ≠ b →
  ∃ bits ft self',
    encode self text = Ok (bits, ft, self') ∧
    decode self' bits ft = Ok (text, self') ∧
    decode new_coder bits ft = Ok (text, self').
Proof.
  intros Ha Hb Hab.
  assert (text ≠ []) as Hne by (intros ->; by apply elem_of_nil in Ha).
  destruct (encode_spec self text Hne) as (t & cws & Ht & Hnd & Hcws & Henc).
  destruct (build_of_text text Hne) as (t' & Ht' & Hbuilds & _).
  rewrite Ht in Ht'. simplify_eq.
  destruct (two_symbols_internal text t' a b) as (f & l & r & ->); [done..|].
  eexists _, _, _. split; [done|].
  assert (Hcws' : Forall2 (λ c w, (c, w) ∈ paths (Internal f l r) ∧ w ≠ []) text cws).
  { eapply Forall2_impl; [done|]. intros c w Hin. split; [done|].
    by apply (paths_internal_nonempty f l r c). }
  assert (Hloop : decode_loop (tables_of (Some (Internal f l r))) (concat cws) [] []
                  = text).
  { rewrite <-(app_nil_r (concat cws)).
    by rewrite (decode_loop_concat _ text). }
  assert (build_frequency_table text ≠ []) as Hft.
  { intros Hft. by apply build_frequency_table_nil in Hft. }
  split.
  - rewrite decode_stored; [by rewrite Hloop|apply tables_nonempty|done].
  - rewrite (decode_rebuild _ _ _ (Some (Internal f l r))); [by rewrite Hloop|done| |done..].
    destruct Hcws' as [|c w ?? [_ Hw] _]; [done|]. simpl. by destruct w.
Qed.

End coder_facts.

(** ** Properties of the coder *)

Section properties.
Context {Sym : Type} `{Countable Sym}.
Implicit Types (t : HuffmanNode Sym) (self : Coder Sym) (text : list Sym).
Implicit Types (ft : list (Sym * Z)).

(** C8: [encode] never raises; the bit string it returns is the
    concatenation, in the order of the text, of the code words that the
    coder's table holds for the symbols of the text. Its length is the sum
    over the table's symbols of count times code word length. The
    frequency table returned with it has one entry per distinct symbol of
    the text, which is the positive number of occurrences of the symbol,
    and the counts add up to the length of the text. *)
Theorem encode_stream_and_table self text :
  ∃ bits ft self' cws,
    encode self text = Ok (bits, ft, self') ∧
    Forall2 (λ c w, codes self' !! c = Some w) text cws ∧
    bits = concat cws ∧
    Z.of_nat (length bits) = weighted_sum (code_length self') ft ∧
    NoDup ft.*1 ∧
    (∀ s, s ∈ ft.*1 ↔ s ∈ text) ∧
    (∀ s n, (s, n) ∈ ft → n = occurrences s text ∧ (0 < n)%Z) ∧
    weighted_sum (λ _, 1%Z) ft = Z.of_nat (length text).
Proof.
  destruct (decide (text = [])) as [->|Hne].
  { exists [], [], self, []. split_and!; try done.
    - constructor.
    - intros s n Hin. by apply elem_of_nil in Hin. }
  destruct (encode_spec self text Hne) as (t & cws & Ht & Hnd & Hcws & Henc).
  assert (Hcws' : Forall2 (λ c w, codes (tables_of (Some t)) !! c = Some w) text cws).
  { eapply Forall2_impl; [done|]. intros c w ?. by apply codes_lookup. }
  eexists _, _, _, cws. split_and!; [done..| | | | |].
  - rewrite build_frequency_table_weighted_sum.
    clear -Hcws'. induction Hcws' as [|c w text cws Hc _ IH]; simpl; [done|].
    rewrite length_app, <-IH. unfold code_length. rewrite Hc. simpl. lia.
  - apply build_frequency_table_NoDup.
  - apply build_frequency_table_keys.
  - apply build_frequency_table_count.
  - rewrite build_frequency_table_weighted_sum.
    clear. induction text as [|c text IH]; simpl; lia.
Qed.

(** C4: the code table generated for the frequency table of any text
    exists, and in it the code word of a symbol is never a prefix of the
    code word of a different symbol. *)
Theorem code_table_prefix_free text :
  ∃ table, code_table text = Ok table ∧
    ∀ a b wa wb, a ≠ b → table !! a = Some wa → table !! b = Some wb →
      ¬ wa `prefix_of` wb.
Proof.
  unfold code_table. destruct (decide (text = [])) as [->|Hne].
  { eexists. split; [done|]. intros a b wa wb _ Ha. simpl in Ha.
    by rewrite lookup_empty in Ha. }
  destruct (build_of_text text Hne) as (t & -> & _ & _ & Hnd & _).
  eexists. split; [done|]. intros a b wa wb Hab Ha Hb Hpre.
  change (generate_codes new_coder (Some t) []) with (tables_of (Some t)) in Ha, Hb.
  apply codes_lookup in Ha, Hb; [|done..].
  by destruct (paths_prefix t a wa b wb).
Qed.

(** C6: [encode] returns the same bit string, frequency table and code
    tables whenever it is run on the same text from a fresh coder; for a
    text that is not empty it returns them from any coder, as it resets
    the tables it starts from. *)
Theorem encode_deterministic text :
  ∃ bits ft tables,
    encode new_coder text = Ok (bits, ft, tables) ∧
    ∀ self, text ≠ [] → encode self text = Ok (bits, ft, tables).
Proof.
  destruct (decide (text = [])) as [->|Hne].
  { by exists [], [], new_coder. }
  destruct (encode_spec new_coder text Hne) as (t & cws & Ht & _ & _ & Henc).
  eexists _, _, _. split; [done|]. intros self _.
  by destruct text.
Qed.


(** C10: with tables in store, [decode] runs on them, and the
    [freq_table] argument only counts through being empty or not; with
    none in store, it runs on the tables of the tree that it builds from
    [freq_table]. *)
Theorem decode_stored_or_rebuilt self bits ft :
  (codes self ≠ ∅ → ft ≠ [] →
     decode self bits ft = Ok (decode_loop self bits [] [], self) ∧
     ∀ ft', ft' ≠ [] → decode self bits ft' = decode self bits ft) ∧
  (codes self = ∅ → bits ≠ [] → ft ≠ [] →
     ∃ root, build_huffman_tree ft = Ok root ∧
       decode self bits ft
         = Ok (decode_loop (generate_codes new_coder root []) bits [] [],
               generate_codes new_coder root [])) ∧
  (bits = [] ∨ ft = [] → decode self bits ft = Ok ([], self)).
Proof.
  split_and!.
  - intros Hcodes Hft. split; [by apply decode_stored|].
    intros ft' Hft'. by rewrite !decode_stored.
  - intros Hcodes Hbits Hft.
    destruct (build_huffman_tree_spec ft Hft) as (t & Ht & _).
    exists (Some t). split; [done|]. by apply (decode_rebuild self bits ft (Some t)).
  - intros [->| ->]; [done|by destruct bits].
Qed.

(** C2, as the code has it: a bit string cut inside a code word is decoded
    without an error. Let [encode] turn a text into [bits], and let the
    text be [pre ++ c :: suf]. For the bits of [pre] followed by a proper
    part [q] of the code word of [c], [decode] returns [pre], with the
    coder that encoded and with a fresh one: the bits [q] are dropped. *)
Theorem decode_truncated self text bits ft self' pre c suf cws1 w q :
  encode self text = Ok (bits, ft, self') →
  text = pre ++ c :: suf →
  Forall2 (λ c w, codes self' !! c = Some w) pre cws1 →
  codes self' !! c = Some w →
  q `prefix_of` w → q ≠ w →
  (concat cws1 ++ q) `prefix_of` bits ∧ concat cws1 ++ q ≠ bits ∧
  ∃ st1 st2,
    decode self' (concat cws1 ++ q) ft = Ok (pre, st1) ∧
    decode new_coder (concat cws1 ++ q) ft = Ok (pre, st2).
Proof.
  intros Henc -> Hcws1 Hw Hpre Hne.
  destruct (encode_spec self (pre ++ c :: suf)) as (t & cws & Ht & Hnd & Hcws & Henc').
  { by destruct pre. }
  rewrite Henc in Henc'. simplify_eq.
  apply codes_lookup in Hw; [|done].
  assert (Hcws1' : Forall2 (λ c w, (c, w) ∈ paths t) pre cws1).
  { eapply Forall2_impl; [done|]. intros c' w' ?. by apply codes_lookup. }
  assert (Hfun : ∀ c' w1 w2, (c', w1) ∈ paths t → (c', w2) ∈ paths t → w1 = w2).
  { intros c' w1 w2. apply NoDup_fst_functional. by rewrite paths_fst. }
  apply Forall2_app_inv_l in Hcws as (k1 & k2 & Hk1 & Hk2 & ->).
  assert (k1 = cws1) as ->.
  { clear -Hk1 Hcws1' Hfun. revert cws1 Hcws1'.
    induction Hk1 as [|c' w' pre k1 Hc' _ IH]; intros cws1 Hcws1; inversion Hcws1; subst;
      [done|]. f_equal; eauto. }
  inversion Hk2 as [|c' w' ? k3 Hw' Hk3]; subst.
  assert (w' = w) as -> by eauto.
  destruct t as [c0 f0|f l r].
  { simpl in Hw. apply list_elem_of_singleton in Hw. simplify_eq.
    apply prefix_nil_inv in Hpre. done. }
  assert (Hcws1'' : Forall2 (λ c w, (c, w) ∈ paths (Internal f l r) ∧ w ≠ []) pre cws1).
  { eapply Forall2_impl; [done|]. intros c' w' Hin. split; [done|].
    by apply (paths_internal_nonempty f l r c'). }
  assert (Hloop : decode_loop (tables_of (Some (Internal f l r)))
                    (concat cws1 ++ q) [] [] = pre).
  { rewrite (decode_loop_concat _ pre) by done. simpl.
    by apply (decode_loop_partial _ c w []). }
  assert (build_frequency_table (pre ++ c :: suf) ≠ []) as Hft.
  { intros Hft. apply build_frequency_table_nil in Hft. by destruct pre. }
  split_and!.
  - rewrite concat_app. simpl. destruct Hpre as [k ->].
    apply prefix_app. exists (k ++ concat k3). by rewrite (assoc_L (++)).
  - rewrite concat_app. simpl. intros Heq%app_inv_head.
    destruct Hpre as [k ->]. apply (f_equal length) in Heq.
    rewrite !length_app in Heq.
    destruct k; [by rewrite app_nil_r in Hne|simpl in Heq; lia].
  - exists (tables_of (Some (Internal f l r))).
    assert (∃ st2, decode new_coder (concat cws1 ++ q)
                     (build_frequency_table (pre ++ c :: suf)) = Ok (pre, st2))
      as [st2 Hst2].
    { destruct (decide (concat cws1 ++ q = [])) as [Hnil|Hnn].
      - rewrite Hnil in Hloop |- *. simpl in Hloop. rewrite <-Hloop. by eexists.
      - rewrite (decode_rebuild _ _ _ (Some (Internal f l r))); [|done..].
        rewrite Hloop. by eexists. }
    exists st2. split; [|done].
    rewrite decode_stored; [by rewrite Hloop|apply tables_nonempty|done].
Qed.

End properties.

(** ** [decode] and the recursion limit *)

Section recursion_limit.
Context {Sym : Type} `{Countable Sym}.
Implicit Types (t : HuffmanNode Sym) (self : Coder Sym) (text : list Sym).
Implicit Types (ft : list (Sym * Z)).









End recursion_limit.

(** ** The merge steps of tree building *)

Section merge_steps.
Context {Sym : Type} `{Countable Sym}.
Implicit Types (heap : list (HuffmanNode Sym)) (ft : list (Sym * Z)).

Lemma building_is_heap ft heap : building ft heap → is_heap freq heap.
Proof.
  induction 1 as [heap Hseed|heap heap' _ IH Hlen Hstep].
  - destruct (seed_heap_spec ft []) as (heap' & Hseed' & _ & Hh);
      [apply is_heap_nil|].
    rewrite Hseed in Hseed'. by simplify_eq.
  - by destruct (merge_step_huffman_step heap heap' IH Hlen Hstep) as (_ & ? & _).
Qed.

(** C7, as the code has it: in every iteration of the merge loop the two
    nodes popped are each of least frequency among the nodes in the heap
    when popped; which node of least frequency is popped is decided by
    the layout of the binary heap, as nodes carry no creation-order id.
    The node pushed back has the sum of the two frequencies, the first
    popped node as its left and the second as its right child, and the
    heap has one node less afterwards. With one node in the heap the loop
    stops. *)
Theorem merge_step_pops_minima ft heap :
  building ft heap →
  (1 < length heap →
   ∃ node1 h1 node2 h2 heap',
     heappop node_lt heap = Ok (node1, h1) ∧
     heappop node_lt h1 = Ok (node2, h2) ∧
     (∀ n, n ∈ heap → (freq node1 ≤ freq n)%Z) ∧
     (∀ n, n ∈ h1 → (freq node2 ≤ freq n)%Z) ∧
     heap ≡ₚ node1 :: node2 :: h2 ∧
     heappush node_lt h2 (Internal (freq node1 + freq node2) node1 node2)
       = Ok heap' ∧
     heap' ≡ₚ Internal (freq node1 + freq node2) node1 node2 :: h2 ∧
     merge_step heap = Ok heap' ∧
     building ft heap' ∧
     S (length heap') = length heap ∧
     ∀ fuel, merge_loop (S fuel) heap = merge_loop fuel heap') ∧
  (length heap ≤ 1 → ∀ fuel, merge_loop fuel heap = Ok heap).
Proof.
  intros Hb. pose proof (building_is_heap ft heap Hb) as Hheap. split.
  - intros Hlen.
    destruct (merge_step_spec heap Hheap Hlen)
      as (n1 & h1 & n2 & h2 & heap' & Hpop1 & Hpop2 & Hpush & Hstep
          & Hp1 & Hp2 & Hm1 & Hm2 & Hp3 & Hh).
    exists n1, h1, n2, h2, heap'. split_and!; try done.
    + by rewrite Hp1, Hp2.
    + by eapply building_step.
    + rewrite Hp3, Hp1, Hp2. done.
    + intros fuel. simpl. rewrite decide_True by done. by rewrite Hstep.
  - intros Hlen fuel. destruct fuel; simpl; by rewrite decide_False by lia.
Qed.

End merge_steps.

(** ** Optimality: the exchange argument on trees of weights *)

#[global] Instance sumZ_perm : Proper ((≡ₚ) ==> (=)) sumZ.
Proof. induction 1; simpl; lia. Qed.

#[global] Instance pcost_perm : Proper ((≡ₚ) ==> (=)) pcost.
Proof. intros P Q HPQ. unfold pcost. by rewrite HPQ. Qed.

Lemma sumZ_cons w l : sumZ (w :: l) = (w + sumZ l)%Z.
Proof. reflexivity. Qed.

Lemma sumZ_app l k : sumZ (l ++ k) = (sumZ l + sumZ k)%Z.
Proof. induction l; simpl; lia. Qed.

Lemma pcost_cons w d P : pcost ((w, d) :: P) = (w * Z.of_nat d + pcost P)%Z.
Proof. reflexivity. Qed.

Lemma pcost_app P Q : pcost (P ++ Q) = (pcost P + pcost Q)%Z.
Proof. unfold pcost. by rewrite fmap_app, sumZ_app. Qed.

Lemma pcost_succ P :
  pcost (prod_map id S <$> P) = (pcost P + sumZ P.*1)%Z.
Proof.
  induction P as [|[w d] P IH]; [done|].
  rewrite !fmap_cons. simpl prod_map. simpl fst.
  rewrite !pcost_cons, IH.
  change (sumZ (w :: P.*1)) with (w + sumZ P.*1)%Z. lia.
Qed.

Lemma wcost_node l r :
  wcost (WNode l r)
  = (wcost l + wcost r + sumZ (weights l) + sumZ (weights r))%Z.
Proof.
  unfold wcost, weights. simpl.
  rewrite pcost_succ, pcost_app, fmap_app, sumZ_app. lia.
Qed.

Lemma weights_node l r : weights (WNode l r) = weights l ++ weights r.
Proof.
  unfold weights. simpl. rewrite <-list_fmap_compose, fmap_app.
  f_equal; by apply list_fmap_ext; intros ? [].
Qed.

Lemma profile_length u : 0 < length (profile u).
Proof.
  induction u as [|l IHl r IHr]; simpl; [lia|].
  rewrite length_fmap, length_app. lia.
Qed.

Lemma profile_depth_le_height u : Forall (λ e, e.2 ≤ height u) (profile u).
Proof.
  induction u as [w|l IHl r IHr]; simpl; [by repeat constructor|].
  apply Forall_fmap, Forall_app. split.
  - eapply Forall_impl; [exact IHl|]. intros [w d] ?. simpl in *. lia.
  - eapply Forall_impl; [exact IHr|]. intros [w d] ?. simpl in *. lia.
Qed.

#[global] Instance treelike_perm : Proper ((≡ₚ) ==> iff) treelike.
Proof.
  intros P Q HPQ. unfold treelike.
  split; intros [u Hu]; exists u; by rewrite Hu, ?HPQ.
Qed.

(** The weight of a leaf can be changed in place. *)
Lemma treelike_replace w w' d Q :
  treelike ((w, d) :: Q) → treelike ((w', d) :: Q).
Proof.
  intros [u Hu]. revert d Q Hu.
  induction u as [w0|l IHl r IHr]; intros d Q Hu; simpl in Hu.
  - apply Permutation_singleton_l in Hu. simplify_eq. by exists (WLeaf w').
  - assert (Hin : (w, d) ∈ prod_map id S <$> (profile l ++ profile r)).
    { rewrite Hu. by left. }
    apply list_elem_of_fmap in Hin as ([w1 d0] & [= -> ->] & Hin).
    assert (∀ (l1 r1 : wtree) Q1,
      profile l1 ≡ₚ (w1, d0) :: Q1 →
      (∀ Q2, profile l1 ≡ₚ (w1, d0) :: Q2 → treelike ((w', d0) :: Q2)) →
      (w1, S d0) :: Q ≡ₚ prod_map id S <$> (profile l1 ++ profile r1) →
      treelike ((w', S d0) :: Q)) as Hside.
    { intros l1 r1 Q1 Hl1 IH HQ.
      destruct (IH Q1 Hl1) as [l' Hl'].
      exists (WNode l' r1). simpl. rewrite Hl'.
      rewrite Hl1 in HQ. simpl in HQ. apply (inj (cons _)) in HQ.
      by rewrite HQ. }
    apply elem_of_app in Hin as [Hin|Hin];
      apply elem_of_Permutation in Hin as [Q1 HQ1].
    + apply (Hside l r Q1 HQ1); [intros Q2; apply IHl|by rewrite Hu].
    + apply (Hside r l Q1 HQ1); [intros Q2; apply IHr|].
      by rewrite <-Hu, (Permutation_app_comm (profile r)).
Qed.

Lemma height_node_pos l r : 0 < height (WNode l r).
Proof. simpl. lia. Qed.

Lemma height_0_leaf u : height u = 0 → ∃ w, u = WLeaf w.
Proof. destruct u; [eauto|simpl; lia]. Qed.

(** A tree that is not a leaf has two sibling leaves at its greatest
    depth; they can be merged into one leaf of any weight [z], one level
    up, with the other leaves [R] in place. *)
Lemma deepest_siblings u :
  0 < height u →
  ∃ x y R,
    profile u ≡ₚ (x, height u) :: (y, height u) :: R ∧
    (∀ z, treelike ((z, height u - 1) :: R)) ∧
    Forall (λ e, e.2 ≤ height u) R.
Proof.
  induction u as [w|l IHl r IHr]; simpl; [lia|]. intros _.
  assert (∀ l1 r1 : wtree,
    0 < height l1 → height r1 ≤ height l1 →
    (∃ x y R,
       profile l1 ≡ₚ (x, height l1) :: (y, height l1) :: R ∧
       (∀ z, treelike ((z, height l1 - 1) :: R)) ∧
       Forall (λ e, e.2 ≤ height l1) R) →
    ∃ x y R,
      prod_map id S <$> (profile l1 ++ profile r1)
        ≡ₚ (x, S (height l1)) :: (y, S (height l1)) :: R ∧
      (∀ z, treelike ((z, height l1) :: R)) ∧
      Forall (λ e, e.2 ≤ S (height l1)) R) as Hside.
  { intros l1 r1 Hpos Hle (x & y & Rl & Hl1 & Hhole & Hdepth).
    exists x, y, (prod_map id S <$> (Rl ++ profile r1)). split_and!.
    - by rewrite Hl1.
    - intros z. destruct (Hhole z) as [ul Hul].
      exists (WNode ul r1). simpl. rewrite Hul. simpl.
      by replace (S (height l1 - 1)) with (height l1) by lia.
    - apply Forall_fmap, Forall_app. split.
      + eapply Forall_impl; [exact Hdepth|]. intros [w d] ?. simpl in *. lia.
      + eapply Forall_impl; [apply profile_depth_le_height|].
        intros [w d] ?. simpl in *. lia. }
  destruct (decide (height r ≤ height l)) as [Hle|Hgt].
  - destruct (decide (height l = 0)) as [Hl0|Hlpos].
    + destruct (height_0_leaf l Hl0) as [a ->].
      destruct (height_0_leaf r) as [b ->]; [simpl in Hle; lia|].
      exists a, b, []. simpl. split_and!; [done| |constructor].
      intros z. by exists (WLeaf z).
    + replace (height l `max` height r) with (height l) by lia.
      rewrite Nat.sub_0_r.
      apply Hside; [lia|done|]. apply IHl. lia.
  - replace (height l `max` height r) with (height r) by lia.
    rewrite Nat.sub_0_r.
    setoid_rewrite (Permutation_app_comm (profile l)).
    apply Hside; [lia|lia|]. apply IHr. lia.
Qed.

Lemma perm_cons_cases {A} (x y : A) (l k : list A) :
  x :: l ≡ₚ y :: k →
  (x = y ∧ l ≡ₚ k) ∨ ∃ k', k ≡ₚ x :: k' ∧ l ≡ₚ y :: k'.
Proof.
  intros Hperm.
  assert (x ∈ y :: k) as [->|Hin]%elem_of_cons by (rewrite <-Hperm; by left).
  - left. split; [done|]. by apply (inj (cons y)).
  - right. apply elem_of_Permutation in Hin as [k' Hk']. exists k'. split; [done|].
    rewrite Hk', perm_swap in Hperm. by apply (inj (cons x)) in Hperm.
Qed.

Lemma fst_perm_lift (R : list (Z * nat)) w k :
  R.*1 ≡ₚ w :: k → ∃ d R0, R ≡ₚ (w, d) :: R0 ∧ R0.*1 ≡ₚ k.
Proof.
  intros Hperm.
  assert (w ∈ R.*1) as ([w' d] & -> & Hin)%list_elem_of_fmap
    by (rewrite Hperm; by left).
  apply elem_of_Permutation in Hin as [R0 HR0]. exists d, R0. split; [done|].
  rewrite HR0 in Hperm. simpl in Hperm. by apply (inj (cons _)) in Hperm.
Qed.

(** One of the two merged leaves has weight [s]; a least weight [w] is
    brought to its place from where it is among the other leaves. *)
Lemma slot_swap h R s w restM :
  (∀ z, treelike ((z, h - 1) :: R)) →
  Forall (λ e, e.2 ≤ h) R →
  s :: R.*1 ≡ₚ w :: restM →
  (w ≤ s)%Z →
  ∃ R',
    (∀ z, treelike ((z, h - 1) :: R')) ∧
    Forall (λ e, e.2 ≤ h) R' ∧
    R'.*1 ≡ₚ restM ∧
    (w * Z.of_nat h + pcost R' ≤ s * Z.of_nat h + pcost R)%Z.
Proof.
  intros Hhole Hdepth Hperm Hws.
  apply perm_cons_cases in Hperm as [[-> Hperm]|(k' & Hrest & Hperm)].
  { exists R. split_and!; [done..|lia]. }
  apply fst_perm_lift in Hperm as (d & R0 & HR & HR0).
  exists ((s, d) :: R0).
  rewrite HR in Hdepth. apply Forall_cons in Hdepth as [Hd Hdepth]. simpl in Hd.
  split_and!.
  - intros z. rewrite perm_swap. apply (treelike_replace w).
    rewrite perm_swap, <-HR. apply Hhole.
  - by apply Forall_cons.
  - simpl. by rewrite HR0, Hrest.
  - rewrite HR, !pcost_cons. nia.
Qed.

Lemma exchange_slots h R x y w1 w2 rest :
  (∀ z, treelike ((z, h - 1) :: R)) →
  Forall (λ e, e.2 ≤ h) R →
  x :: y :: R.*1 ≡ₚ w1 :: w2 :: rest →
  (∀ w, w ∈ x :: y :: R.*1 → (w1 ≤ w)%Z) →
  (∀ w, w ∈ w2 :: rest → (w2 ≤ w)%Z) →
  ∃ R',
    (∀ z, treelike ((z, h - 1) :: R')) ∧
    R'.*1 ≡ₚ rest ∧
    ((w1 + w2) * Z.of_nat h + pcost R' ≤ (x + y) * Z.of_nat h + pcost R)%Z.
Proof.
  intros Hhole Hdepth Hperm Hmin1 Hmin2.
  apply perm_cons_cases in Hperm as [[-> Hperm]|(k' & Hrest & Hperm)].
  - destruct (slot_swap h R y w2 rest) as (R' & ? & _ & ? & ?); [done..| |].
    { apply Hmin2. rewrite <-Hperm. by left. }
    exists R'. split_and!; [done..|lia].
  - destruct (slot_swap h R y w1 k') as (R1 & Hhole1 & Hdepth1 & HR1 & Hcost1);
      [done..| |].
    { apply Hmin1. right. by left. }
    destruct (slot_swap h R1 x w2 rest) as (R' & ? & _ & ? & ?); [done..| | |].
    { by rewrite HR1, <-Hrest. }
    { apply Hmin2. rewrite Hrest. by left. }
    exists R'. split_and!; [done..|lia].
Qed.

(** The exchange step: in any tree, two least weights can be made siblings
    and merged, and that takes at least their sum off the cost. *)
Lemma exchange u w1 w2 rest :
  weights u ≡ₚ w1 :: w2 :: rest →
  (∀ w, w ∈ weights u → (w1 ≤ w)%Z) →
  (∀ w, w ∈ w2 :: rest → (w2 ≤ w)%Z) →
  ∃ u', weights u' ≡ₚ (w1 + w2)%Z :: rest ∧ (wcost u' + w1 + w2 ≤ wcost u)%Z.
Proof.
  intros Hperm Hmin1 Hmin2.
  assert (0 < height u) as Hpos.
  { destruct u; [|apply height_node_pos].
    apply Permutation_length in Hperm. simpl in Hperm. lia. }
  destruct (deepest_siblings u Hpos) as (x & y & R & Hprof & Hhole & Hdepth).
  assert (∀ w, w ∈ x :: y :: R.*1 → (w1 ≤ w)%Z) as Hmin1'.
  { intros w Hw. apply Hmin1. unfold weights. by rewrite Hprof. }
  unfold weights in *. rewrite Hprof in Hperm. simpl in Hperm.
  destruct (exchange_slots (height u) R x y w1 w2 rest)
    as (R' & Hhole' & HR' & Hcost); [done..|].
  destruct (Hhole' (w1 + w2)%Z) as [u' Hu'].
  exists u'. unfold wcost. rewrite Hu', Hprof. simpl. split; [by rewrite HR'|].
  rewrite !pcost_cons.
  destruct (height u) as [|h]; [lia|].
  simpl Nat.sub. rewrite Nat.sub_0_r. rewrite Nat2Z.inj_succ in *. lia.
Qed.

(** The cost of the merge steps is least among the trees with the same
    weights at their leaves. *)
Lemma hcost_least W c :
  hcost W c → ∀ u, weights u ≡ₚ W → (c ≤ wcost u)%Z.
Proof.
  induction 1 as [w|W W' w1 w2 rest c HW Hmin1 Hmin2 HW' _ IH]; intros u Hu.
  - destruct u as [w0|l r]; [unfold wcost, pcost; simpl; lia|].
    apply Permutation_length in Hu. rewrite weights_node, length_app in Hu.
    unfold weights in Hu. rewrite !length_fmap in Hu.
    pose proof (profile_length l). pose proof (profile_length r).
    simpl in Hu. lia.
  - destruct (exchange u w1 w2 rest) as (u' & Hu' & Hcost).
    + by rewrite Hu.
    + intros w Hw. apply Hmin1. by rewrite <-Hu.
    + done.
    + assert (c ≤ wcost u')%Z by (apply IH; by rewrite Hu', HW'). lia.
Qed.

(** *** From a prefix-free binary code to a tree *)

Lemma sumZ_nonneg l : Forall (λ w, 0 ≤ w)%Z l → (0 ≤ sumZ l)%Z.
Proof. induction 1; simpl; lia. Qed.

Lemma icost_cons c w items :
  icost ((c, w) :: items) = (w * Z.of_nat (length c) + icost items)%Z.
Proof. reflexivity. Qed.

Lemma strip_cons b c w items :
  strip b ((b :: c, w) :: items) = (c, w) :: strip b items.
Proof. unfold strip. simpl. by rewrite decide_True. Qed.

Lemma strip_cons_ne b b' c w items :
  b' ≠ b → strip b ((b' :: c, w) :: items) = strip b items.
Proof. intros. unfold strip. simpl. by rewrite decide_False. Qed.

Lemma elem_of_strip b c w items : (c, w) ∈ strip b items ↔ (b :: c, w) ∈ items.
Proof.
  unfold strip. rewrite list_elem_of_omap. split.
  - intros ([[|b' c'] w'] & Hin & Heq); simpl in Heq; [done|].
    case_decide; by simplify_eq.
  - intros Hin. exists (b :: c, w). split; [done|]. simpl. by rewrite decide_True.
Qed.

Lemma strip_pfree b items : pfree items.*1 → pfree (strip b items).*1.
Proof.
  induction items as [|[[|b' c] w] items IH]; simpl; [done|..]; intros [Hc Hpf].
  - by apply IH.
  - destruct (decide (b' = b)) as [->|Hne].
    + rewrite strip_cons. simpl. split; [|by apply IH].
      apply Forall_fmap, Forall_forall. intros [c' w'] Hin%elem_of_strip. simpl.
      rewrite Forall_forall in Hc. destruct (Hc (b :: c')) as [H1 H2].
      { by apply (list_elem_of_fmap_2' fst _ (b :: c', w')). }
      split; intros Hpre; [apply H1|apply H2]; by apply prefix_cons.
    + rewrite strip_cons_ne by done. by apply IH.
Qed.

Lemma strip_Forall b n items :
  Forall (λ it, (0 ≤ it.2)%Z ∧ length it.1 ≤ S n ∧ binary it.1) items →
  Forall (λ it, (0 ≤ it.2)%Z ∧ length it.1 ≤ n ∧ binary it.1) (strip b items).
Proof.
  rewrite !Forall_forall. intros Hall [c w] Hin%elem_of_strip.
  destruct (Hall _ Hin) as (? & ? & Hbin). simpl in *.
  apply Forall_cons in Hbin as [_ ?]. split_and!; [done|lia|done].
Qed.

Lemma strip_split items :
  Forall (λ it, it.1 ≠ [] ∧ binary it.1) items →
  items.*2 ≡ₚ (strip "0" items).*2 ++ (strip "1" items).*2 ∧
  icost items
  = (icost (strip "0" items) + sumZ (strip "0" items).*2
     + icost (strip "1" items) + sumZ (strip "1" items).*2)%Z.
Proof.
  induction 1 as [|[[|b c] w] items [Hne Hbin] _ [IHp IHc]]; simpl in *; [done..|].
  apply Forall_cons in Hbin as [[->| ->] _].
  - rewrite strip_cons, strip_cons_ne by done. rewrite !fmap_cons. cbn [snd].
    split; [by rewrite IHp|].
    rewrite !icost_cons, sumZ_cons, IHc. cbn [length]. lia.
  - rewrite strip_cons, strip_cons_ne by done. rewrite !fmap_cons. cbn [snd].
    split; [by rewrite IHp, <-Permutation_middle|].
    rewrite !icost_cons, sumZ_cons, IHc. cbn [length]. lia.
Qed.

Lemma pfree_nonempty c1 c2 L : pfree (c1 :: c2 :: L) → Forall (λ c, c ≠ []) (c1 :: c2 :: L).
Proof.
  intros [Hc1 _]. apply Forall_cons. split.
  - intros ->. apply Forall_cons in Hc1 as [[Hpre _] _]. apply Hpre, prefix_nil.
  - eapply Forall_impl; [exact Hc1|]. intros c [_ Hpre] ->. apply Hpre, prefix_nil.
Qed.

(** A prefix-free binary code with weights that are not negative has a
    tree with the weights at its leaves that costs no more. *)
Lemma code_tree n items :
  items ≠ [] →
  Forall (λ it, (0 ≤ it.2)%Z ∧ length it.1 ≤ n ∧ binary it.1) items →
  pfree items.*1 →
  ∃ u, weights u ≡ₚ items.*2 ∧ (wcost u ≤ icost items)%Z.
Proof.
  revert items. induction n as [|n IH]; intros items Hne Hall Hpf;
    (destruct items as [|[c1 w1] [|it2 items]]; [done| |]).
  1, 3: exists (WLeaf w1); split; [done|];
    apply Forall_cons in Hall as [[? _] _];
    unfold wcost, icost, pcost; simpl in *; nia.
  - apply pfree_nonempty in Hpf. apply Forall_cons in Hpf as [Hc1 _].
    apply Forall_cons in Hall as [(_ & Hlen & _) _]. simpl in *.
    destruct c1; [done|simpl in Hlen; lia].
  - assert (Forall (λ c, c ≠ []) ((c1, w1) :: it2 :: items).*1) as Hnn.
    { rewrite !fmap_cons in Hpf |- *. by apply pfree_nonempty. }
    set (items0 := (c1, w1) :: it2 :: items) in *.
    assert (Forall (λ it, it.1 ≠ [] ∧ binary it.1) items0) as Hnb.
    { apply Forall_forall. intros it Hin. split.
      - rewrite Forall_forall in Hnn. apply Hnn. by apply list_elem_of_fmap_2.
      - rewrite Forall_forall in Hall. by destruct (Hall it Hin) as (_ & _ & ?). }
    destruct (strip_split items0 Hnb) as [Hperm Hcost].
    assert (∀ b, Forall (λ w, 0 ≤ w)%Z (strip b items0).*2) as Hpos.
    { intros b. apply Forall_fmap.
      eapply Forall_impl; [exact (strip_Forall b n items0 Hall)|]. by intros it [? _]. }
    assert (∀ b, strip b items0 ≠ [] →
      ∃ u, weights u ≡ₚ (strip b items0).*2 ∧ (wcost u ≤ icost (strip b items0))%Z)
      as Hsub.
    { intros b Hb. apply IH; [done|by apply strip_Forall|by apply strip_pfree]. }
    pose proof (sumZ_nonneg _ (Hpos "0"%char)) as Hs0.
    pose proof (sumZ_nonneg _ (Hpos "1"%char)) as Hs1.
    destruct (decide (strip "0" items0 = [])) as [He0|He0];
      destruct (decide (strip "1" items0 = [])) as [He1|He1].
    + rewrite He0, He1 in Hperm. by apply Permutation_nil_r in Hperm.
    + destruct (Hsub _ He1) as (u & Hu & Hcu). exists u.
      rewrite He0 in Hperm, Hcost. rewrite fmap_nil, app_nil_l in Hperm.
      split; [by rewrite Hperm|]. change (icost []) with 0%Z in Hcost.
      change (sumZ ([] : list (list ascii * Z)).*2) with 0%Z in Hcost. lia.
    + destruct (Hsub _ He0) as (u & Hu & Hcu). exists u.
      rewrite He1 in Hperm, Hcost. rewrite fmap_nil, app_nil_r in Hperm.
      split; [by rewrite Hperm|]. change (icost []) with 0%Z in Hcost.
      change (sumZ ([] : list (list ascii * Z)).*2) with 0%Z in Hcost. lia.
    + destruct (Hsub _ He0) as (u0 & Hu0 & Hcu0).
      destruct (Hsub _ He1) as (u1 & Hu1 & Hcu1).
      exists (WNode u0 u1). rewrite weights_node, wcost_node, Hu0, Hu1.
      split; [by rewrite Hperm|]. lia.
Qed.

(** *** The code of the coder is optimal *)

Section optimal_code.
Context {Sym : Type} `{Countable Sym}.
Implicit Types (t : HuffmanNode Sym) (ft : list (Sym * Z)).

Lemma weights_to_wtree t : weights (to_wtree t) = (leaves t).*2.
Proof.
  induction t as [c f|f l IHl r IHr]; simpl; [done|].
  by rewrite weights_node, fmap_app, IHl, IHr.
Qed.

Lemma well_weighted_freq t : well_weighted t → freq t = sumZ (leaves t).*2.
Proof.
  induction t as [c f|f l IHl r IHr]; simpl.
  - intros _. unfold sumZ. simpl. lia.
  - intros (-> & Hl & Hr). by rewrite fmap_app, sumZ_app, IHl, IHr.
Qed.

#[global] Instance weighted_sum_perm (g : Sym → Z) :
  Proper ((≡ₚ) ==> (=)) (weighted_sum g).
Proof.
  induction 1 as [|[s n] ft1 ft2 _ IH|[s1 n1] [s2 n2] ft|ft1 ft2 ft3 _ IH1 _ IH2];
    simpl.
  - done.
  - by rewrite IH.
  - lia.
  - by rewrite IH1.
Qed.

Lemma weighted_sum_app (g : Sym → Z) ft1 ft2 :
  weighted_sum g (ft1 ++ ft2) = (weighted_sum g ft1 + weighted_sum g ft2)%Z.
Proof. induction ft1 as [|[] ft1 IH]; simpl; lia. Qed.

Lemma weighted_sum_cons (g : Sym → Z) s n ft :
  weighted_sum g ((s, n) :: ft) = (n * g s + weighted_sum g ft)%Z.
Proof. reflexivity. Qed.

Lemma weighted_sum_shift (g : Sym → Z) ft :
  weighted_sum g ft = (weighted_sum (λ s, g s - 1) ft + sumZ ft.*2)%Z.
Proof.
  induction ft as [|[s n] ft IH]; [done|].
  rewrite !weighted_sum_cons, fmap_cons, sumZ_cons, IH. cbn [snd]. lia.
Qed.

(** The cost of the code words of a tree is the cost of its weights. *)
Lemma tree_cost t (g : Sym → Z) :
  (∀ s p, (s, p) ∈ paths t → g s = Z.of_nat (length p)) →
  weighted_sum g (leaves t) = wcost (to_wtree t).
Proof.
  revert g. induction t as [c f|f l IHl r IHr]; intros g Hg; simpl.
  - rewrite (Hg c []) by (by left). unfold wcost, pcost. simpl. lia.
  - rewrite weighted_sum_app, wcost_node, !weights_to_wtree.
    rewrite (weighted_sum_shift g (leaves l)), (weighted_sum_shift g (leaves r)).
    rewrite (IHl (λ s, g s - 1)%Z), (IHr (λ s, g s - 1)%Z); [lia|..].
    + intros s p Hin. rewrite (Hg s ("1"%char :: p)); [simpl; lia|].
      simpl. apply elem_of_app. right.
      by apply (list_elem_of_fmap_2' _ _ (s, p)).
    + intros s p Hin. rewrite (Hg s ("0"%char :: p)); [simpl; lia|].
      simpl. apply elem_of_app. left.
      by apply (list_elem_of_fmap_2' _ _ (s, p)).
Qed.

(** The merge steps of the coder add up the cost of the tree they make. *)
Lemma builds_hcost F t :
  builds F t → Forall well_weighted F →
  hcost (freq <$> F)
    (wcost (to_wtree t) - sumZ ((λ a, wcost (to_wtree a)) <$> F)).
Proof.
  induction 1 as [t|F F' t [n1 n2 rest HF Hmin1 Hmin2 HF'] _ IH]; intros Hww.
  - replace (_ - _)%Z with 0%Z by (simpl; lia). constructor.
  - rewrite HF in Hww. apply Forall_cons in Hww as [Hw1 [Hw2 Hwr]%Forall_cons].
    assert (Forall well_weighted F') as Hww'.
    { rewrite HF'. apply Forall_cons. simpl. auto. }
    specialize (IH Hww').
    assert (sumZ ((λ a, wcost (to_wtree a)) <$> F)
            = (wcost (to_wtree n1) + wcost (to_wtree n2)
               + sumZ ((λ a, wcost (to_wtree a)) <$> rest))%Z) as ->.
    { rewrite HF, !fmap_cons, !sumZ_cons. lia. }
    assert (sumZ ((λ a, wcost (to_wtree a)) <$> F')
            = (wcost (to_wtree n1) + wcost (to_wtree n2) + freq n1 + freq n2
               + sumZ ((λ a, wcost (to_wtree a)) <$> rest))%Z) as Hsum.
    { rewrite HF', !fmap_cons, !sumZ_cons. simpl to_wtree.
      rewrite wcost_node, !weights_to_wtree.
      rewrite <-!well_weighted_freq by done. lia. }
    rewrite Hsum in IH.
    match goal with
    | |- hcost _ ?c =>
        replace c with
          ((wcost (to_wtree t)
            - (wcost (to_wtree n1) + wcost (to_wtree n2) + freq n1 + freq n2
               + sumZ ((λ a, wcost (to_wtree a)) <$> rest)))
           + freq n1 + freq n2)%Z by lia
    end.
    apply (hcost_step _ (freq <$> F') _ _ (freq <$> rest)).
    + by rewrite HF.
    + intros w (n & -> & Hn)%list_elem_of_fmap. by apply Hmin1.
    + intros w Hw. change (w ∈ freq <$> (n2 :: rest)) in Hw.
      apply list_elem_of_fmap in Hw as (n & -> & Hn). by apply Hmin2.
    + by rewrite HF'.
    + done.
Qed.

Lemma items_of_snd assignment ft : (items_of assignment ft).*2 = ft.*2.
Proof. unfold items_of. rewrite <-list_fmap_compose. done. Qed.

Lemma items_of_icost assignment ft :
  icost (items_of assignment ft)
  = weighted_sum (λ s, Z.of_nat (length (assignment s))) ft.
Proof.
  induction ft as [|[s n] ft IH]; [done|].
  unfold items_of in *. rewrite fmap_cons, icost_cons, IH. done.
Qed.

Lemma items_of_pfree assignment ft :
  NoDup ft.*1 →
  (∀ a b, a ∈ ft.*1 → b ∈ ft.*1 → a ≠ b →
     ¬ assignment a `prefix_of` assignment b) →
  pfree (items_of assignment ft).*1.
Proof.
  induction ft as [|[s n] ft IH]; [done|].
  rewrite fmap_cons. intros [Hs Hnd]%NoDup_cons Hfree. simpl in Hs.
  unfold items_of in *. rewrite !fmap_cons. simpl. split.
  - apply Forall_fmap, Forall_fmap, Forall_forall. intros [s' n'] Hin. simpl.
    assert (s' ∈ ft.*1) by (by apply (list_elem_of_fmap_2' fst _ (s', n'))).
    assert (s ≠ s') by (by intros ->).
    split; apply Hfree; simpl; try done; try (by left); by right.
  - apply IH; [done|]. intros a b Ha Hb. apply Hfree; simpl; by right.
Qed.

Lemma lengths_bounded (items : list (list ascii * Z)) :
  ∃ n, Forall (λ it, length it.1 ≤ n) items.
Proof.
  induction items as [|it items [n IH]]; [by exists 0|].
  exists (length it.1 `max` n). apply Forall_cons. split; [lia|].
  eapply Forall_impl; [done|]. intros it' ?. simpl in *. lia.
Qed.

Lemma paths_binary t c p : (c, p) ∈ paths t → binary p.
Proof.
  revert c p. induction t as [c' f|f l IHl r IHr]; intros c p Hin; simpl in Hin.
  - apply list_elem_of_singleton in Hin. simplify_eq. constructor.
  - apply elem_of_app in Hin as [Hin|Hin];
      apply list_elem_of_fmap in Hin as ([c' p'] & [= -> ->] & Hin).
    + apply Forall_cons_2; [by left|]. by apply (IHl c').
    + apply Forall_cons_2; [by right|]. by apply (IHr c').
Qed.

(** C5: for a frequency table with distinct keys and counts that are not
    negative, [build_huffman_tree] returns a tree, and the code table
    generated from it is itself a binary prefix-free assignment for the
    symbols of the table: it has a code word for exactly the keys of the
    table, every code word is made of ["0"] and ["1"], and no code word is
    a prefix of the code word of another symbol. Its cost, the sum of count
    times code word length, is at most that of any assignment of binary
    code words to the symbols in which no code word is a prefix of the code
    word of another symbol. *)
Theorem huffman_code_optimal ft (assignment : Sym → list ascii) :
  NoDup ft.*1 →
  (∀ s n, (s, n) ∈ ft → (0 ≤ n)%Z) →
  (∀ s, s ∈ ft.*1 → binary (assignment s)) →
  (∀ a b, a ∈ ft.*1 → b ∈ ft.*1 → a ≠ b →
     ¬ assignment a `prefix_of` assignment b) →
  ∃ root,
    build_huffman_tree ft = Ok root ∧
    (∀ s, s ∈ ft.*1 ↔ is_Some (codes (generate_codes new_coder root []) !! s)) ∧
    (∀ s w, codes (generate_codes new_coder root []) !! s = Some w → binary w) ∧
    (∀ a b wa wb,
       codes (generate_codes new_coder root []) !! a = Some wa →
       codes (generate_codes new_coder root []) !! b = Some wb →
       a ≠ b → ¬ wa `prefix_of` wb) ∧
    (weighted_sum (code_length (generate_codes new_coder root [])) ft
     ≤ weighted_sum (λ s, Z.of_nat (length (assignment s))) ft)%Z.
Proof.
  intros Hnd Hpos Hbin Hfree.
  destruct (decide (ft = [])) as [->|Hne].
  { exists None. split; [done|]. simpl. split_and!.
    - intros s. rewrite lookup_empty, elem_of_nil. split; [done|]. by intros [? ?].
    - intros s w. by rewrite lookup_empty.
    - intros a b wa wb. by rewrite lookup_empty.
    - lia. }
  destruct (build_of_table ft Hnd Hne) as (t & Ht & Hb & Hl & Hndl).
  exists (Some t). split; [done|].
  change (generate_codes new_coder (Some t) []) with (tables_of (Some t)).
  split.
  { intros s. rewrite <-Hl, <-paths_fst. split.
    - intros ([s' p] & -> & Hin)%list_elem_of_fmap. exists p. by apply codes_lookup.
    - intros [p Hp%codes_lookup]; [|done].
      by apply (list_elem_of_fmap_2' fst _ (s, p)). }
  split.
  { intros s w Hw%codes_lookup; [|done]. by eapply paths_binary. }
  split.
  { intros a b wa wb Ha%codes_lookup Hb'%codes_lookup Hab Hpre; [|done..].
    by destruct (paths_prefix t _ _ _ _ Ha Hb' Hpre). }
  rewrite <-Hl at 1.
  rewrite (tree_cost t); last first.
  { intros s p Hin. apply codes_lookup in Hin; [|done].
    unfold code_length. by rewrite Hin. }
  pose proof (builds_hcost _ _ Hb) as Hh.
  rewrite <-!list_fmap_compose in Hh.
  assert (freq ∘ uncurry Leaf <$> ft = ft.*2) as Heq1.
  { apply list_fmap_ext. by intros _ [] _. }
  assert (sumZ ((λ a, wcost (to_wtree a)) ∘ uncurry Leaf <$> ft) = 0%Z) as Heq2.
  { clear. induction ft as [|[s n] ft IH]; [done|].
    rewrite fmap_cons, sumZ_cons, IH. unfold wcost, pcost. simpl. lia. }
  rewrite Heq1, Heq2, Z.sub_0_r in Hh.
  assert (hcost ft.*2 (wcost (to_wtree t))) as Hcost.
  { apply Hh. apply Forall_fmap, Forall_forall. by intros [] _. }
  destruct (lengths_bounded (items_of assignment ft)) as [n Hn].
  destruct (code_tree n (items_of assignment ft)) as (u & Hu & Hcu).
  - unfold items_of. by destruct ft.
  - rewrite Forall_forall in Hn. apply Forall_forall. intros it Hin.
    split_and!; [| by apply Hn |].
    + apply list_elem_of_fmap in Hin as ([s m] & -> & Hin). simpl. by eapply Hpos.
    + apply list_elem_of_fmap in Hin as ([s m] & -> & Hin). simpl.
      apply Hbin. by apply (list_elem_of_fmap_2' fst _ (s, m)).
  - by apply items_of_pfree.
  - rewrite items_of_snd in Hu. rewrite items_of_icost in Hcu.
    pose proof (hcost_least _ _ Hcost u Hu). lia.
Qed.

End optimal_code.

(** ** The coder on the texts of the source's demonstrations *)

Example abracadabra_frequencies :
  build_frequency_table (str "abracadabra") = abracadabra_table.
Proof. reflexivity. Qed.

Example abracadabra_build :
  build_huffman_tree abracadabra_table = Ok (Some abracadabra_tree).
Proof. reflexivity. Qed.

Example abracadabra_encode :
  encode new_coder (str "abracadabra")
  = Ok (str "01111100100010101111100", abracadabra_table,
        tables_of (Some abracadabra_tree)).
Proof. vm_compute. reflexivity. Qed.

Example abracadabra_roundtrip :
  roundtrip (str "abracadabra") = Ok (str "abracadabra").
Proof. vm_compute. reflexivity. Qed.

(** C1: the round trip fails on the texts of one repeated symbol, such as
    ["aaaa"] and the ["aaaaaaaaaa"] of the source's own demonstration: the
    lone symbol gets the empty code word, the encoded text is empty, and
    decoding it returns the empty text. *)
Theorem roundtrip_single_symbol :
  encode new_coder (str "aaaa")
    = Ok ([], [("a"%char, 4%Z)], tables_of (Some (Leaf "a"%char 4))) ∧
  roundtrip (str "aaaa") = Ok [] ∧
  roundtrip (str "aaaaaaaaaa") = Ok [].
Proof. split_and!; vm_compute; reflexivity. Qed.

(** C3: for the text ["aaaa"] the code table holds the empty code word for
    ["a"], not ["0"], and decoding the encoded text does not give the text
    back. *)
Theorem single_symbol_code_word :
  code_table (str "aaaa") = Ok {[ "a"%char := [] ]} ∧
  decoded_text (decode new_coder [] [("a"%char, 4%Z)]) = Ok [] ∧
  decoded_text (decode new_coder (str "0000") [("a"%char, 4%Z)]) = Ok [].
Proof. split_and!; vm_compute; reflexivity. Qed.

(** C2 fails: the encoded ["abracadabra"] without its last bit, and without
    its last two bits, which ends inside the code word ["110"] of ["r"], is
    decoded without an error. *)
Lemma truncated_stream_is_decoded :
  decoded_text (decode new_coder (str "0111110010001010111110") abracadabra_table)
    = Ok (str "abracadabr") ∧
  decoded_text (decode new_coder (str "011111001000101011111") abracadabra_table)
    = Ok (str "abracadab").
Proof. split; vm_compute; reflexivity. Qed.

Lemma decode_truncated_witness :
  (concat abracadab_code_words ++ str "11")
    `prefix_of` str "01111100100010101111100" ∧
  concat abracadab_code_words ++ str "11" ≠ str "01111100100010101111100" ∧
  ∃ st1 st2,
    decode (tables_of (Some abracadabra_tree))
      (concat abracadab_code_words ++ str "11") abracadabra_table
      = Ok (str "abracadab", st1) ∧
    decode new_coder (concat abracadab_code_words ++ str "11") abracadabra_table
      = Ok (str "abracadab", st2).
Proof.
  apply (decode_truncated new_coder (str "abracadabra")
           (str "01111100100010101111100") abracadabra_table
           (tables_of (Some abracadabra_tree))
           (str "abracadab") "r"%char (str "a")
           abracadab_code_words (str "110") (str "11")).
  - vm_compute. reflexivity.
  - reflexivity.
  - repeat constructor.
  - vm_compute. reflexivity.
  - by exists (str "0").
  - discriminate.
Defined.

Lemma code_table_prefix_free_witness :
  code_table (str "abracadabra")
    = Ok (codes (tables_of (Some abracadabra_tree))) ∧
  ¬ str "0" `prefix_of` str "111".
Proof.
  destruct (code_table_prefix_free (str "abracadabra")) as (table & Htable & Hfree).
  assert (code_table (str "abracadabra")
          = Ok (codes (tables_of (Some abracadabra_tree)))) as Heq.
  { vm_compute. reflexivity. }
  split; [exact Heq|].
  rewrite Heq in Htable. injection Htable as <-.
  apply (Hfree "a"%char "b"%char).
  - discriminate.
  - vm_compute. reflexivity.
  - vm_compute. reflexivity.
Defined.

Lemma encode_deterministic_witness :
  ∃ r, encode new_coder (str "abracadabra") = Ok r ∧
       encode (tables_of (Some (Leaf "x"%char 1))) (str "abracadabra") = Ok r.
Proof.
  destruct (encode_deterministic (str "abracadabra")) as (bits & ft & tables & Hnew & Hany).
  exists (bits, ft, tables). split; [exact Hnew|].
  apply Hany. discriminate.
Defined.

(** C7 fails: for the text ["abcd"], whose four symbols have frequency 1,
    the first iteration pops ["a"] and then ["c"], and not ["b"], which was
    created before ["c"]; the tree differs from the one that the tie-break
    by creation order gives. For ["abracadabra"] the code merges ["r"]
    before ["b"]. *)
Lemma merge_order_is_not_creation_order :
  seed_heap [] abcd_table = Ok abcd_heap ∧
  heappop node_lt abcd_heap
    = Ok (Leaf "a"%char 1, [Leaf "c"%char 1; Leaf "b"%char 1; Leaf "d"%char 1]) ∧
  heappop node_lt [Leaf "c"%char 1; Leaf "b"%char 1; Leaf "d"%char 1]
    = Ok (Leaf "c"%char 1, [Leaf "b"%char 1; Leaf "d"%char 1]) ∧
  spec_pop_min [(1, Leaf "b"%char 1); (2, Leaf "c"%char 1); (3, Leaf "d"%char 1)]
    = Some ((1, Leaf "b"%char 1), [(2, Leaf "c"%char 1); (3, Leaf "d"%char 1)]) ∧
  build_huffman_tree abcd_table
    = Ok (Some (Internal 4 (Internal 2 (Leaf "a"%char 1) (Leaf "c"%char 1))
                           (Internal 2 (Leaf "b"%char 1) (Leaf "d"%char 1)))) ∧
  spec_build_tree abcd_table
    = Some (Internal 4 (Internal 2 (Leaf "a"%char 1) (Leaf "b"%char 1))
                       (Internal 2 (Leaf "c"%char 1) (Leaf "d"%char 1))) ∧
  build_huffman_tree abracadabra_table = Ok (Some abracadabra_tree) ∧
  spec_build_tree abracadabra_table
    = Some (Internal 11 (Leaf "a"%char 5)
              (Internal 6 (Internal 2 (Leaf "c"%char 1) (Leaf "d"%char 1))
                          (Internal 4 (Leaf "b"%char 2) (Leaf "r"%char 2)))).
Proof. split_and!; vm_compute; reflexivity. Qed.

Lemma merge_step_pops_minima_witness :
  building abcd_table abcd_heap ∧
  ∃ heap', merge_step abcd_heap = Ok heap' ∧ building abcd_table heap' ∧
           S (length heap') = length abcd_heap.
Proof.
  assert (building abcd_table abcd_heap) as Hb by (by apply building_seed).
  split; [exact Hb|].
  destruct (merge_step_pops_minima abcd_table abcd_heap Hb) as [Hstep _].
  destruct Hstep as (n1 & h1 & n2 & h2 & heap' & _ & _ & _ & _ & _ & _ & _ & Hs & Hb' & Hl & _).
  { simpl. lia. }
  by exists heap'.
Defined.



Lemma decode_stored_or_rebuilt_witness :
  decode (tables_of (Some abracadabra_tree)) (str "0111") [("x"%char, 1%Z)]
  = decode (tables_of (Some abracadabra_tree)) (str "0111") abracadabra_table.
Proof.
  destruct (decode_stored_or_rebuilt (tables_of (Some abracadabra_tree))
              (str "0111") abracadabra_table) as (Hstored & _ & _).
  destruct Hstored as [_ Hany].
  - apply tables_nonempty.
  - discriminate.
  - apply Hany. discriminate.
Defined.

(** With the tables of ["abracadabra"] in store, the bits are decoded with
    them, whatever table is passed; a fresh coder decodes the same bits
    with the tables of the table passed. *)
Example decode_with_stored_tables :
  decoded_text (decode (tables_of (Some abracadabra_tree)) (str "0111")
                  [("x"%char, 1%Z); ("y"%char, 2%Z)]) = Ok (str "ab") ∧
  decoded_text (decode new_coder (str "0111")
                  [("x"%char, 1%Z); ("y"%char, 2%Z)]) = Ok (str "xyyy").
Proof. split; vm_compute; reflexivity. Qed.

(** The code of the coder for ["abracadabra"] takes 23 bits, the code
    above 24. *)
Example abracadabra_costs :
  weighted_sum (code_length (tables_of (Some abracadabra_tree))) abracadabra_table
    = 23%Z ∧
  weighted_sum (λ s, Z.of_nat (length (short_code s))) abracadabra_table = 24%Z.
Proof. split; vm_compute; reflexivity. Qed.

Lemma huffman_code_optimal_witness :
  ∃ root,
    build_huffman_tree abracadabra_table = Ok root ∧
    (∀ s, s ∈ abracadabra_table.*1
          ↔ is_Some (codes (generate_codes new_coder root []) !! s)) ∧
    (∀ s w, codes (generate_codes new_coder root []) !! s = Some w → binary w) ∧
    (∀ a b wa wb,
       codes (generate_codes new_coder root []) !! a = Some wa →
       codes (generate_codes new_coder root []) !! b = Some wb →
       a ≠ b → ¬ wa `prefix_of` wb) ∧
    (weighted_sum (code_length (generate_codes new_coder root [])) abracadabra_table
     ≤ weighted_sum (λ s, Z.of_nat (length (short_code s))) abracadabra_table)%Z.
Proof.
  apply (huffman_code_optimal abracadabra_table short_code).
  - apply (bool_decide_unpack _). vm_compute. exact I.
  - intros s n Hin.
    assert (Forall (λ e : ascii * Z, 0 ≤ e.2)%Z abracadabra_table) as Hall.
    { apply (bool_decide_unpack _). vm_compute. exact I. }
    rewrite Forall_forall in Hall. apply (Hall (s, n) Hin).
  - apply Forall_forall. apply (bool_decide_unpack _). vm_compute. exact I.
  - assert (Forall (λ a, Forall (λ b, a ≠ b →
              ¬ short_code a `prefix_of` short_code b) abracadabra_table.*1)
              abracadabra_table.*1) as Hall.
    { apply (bool_decide_unpack _). vm_compute. exact I. }
    intros a b Ha Hb. rewrite Forall_forall in Hall.
    specialize (Hall a Ha). rewrite Forall_forall in Hall. by apply Hall.
Defined.
